(** * my_music_transformer: the multitrack MIDI vocabulary and tokenizer

    A shallow embedding of [multitrack_vocabulary.py] and
    [multitrack_tokenizer.py], and the properties of the codec that the
    specification states about them.

    Python integers are unbounded and are modelled by [Z]; Python lists by
    [list]; the dictionaries of the tokenizer by [gmap]; raised exceptions
    by the [Err] side of [result]. *)

From Stdlib Require Import ZArith QArith Qround Lia Lqa Ascii String.
From stdpp Require Import base tactics option list numbers strings pretty
  gmap sorting.

Local Open Scope string_scope.
Local Open Scope list_scope.
Local Open Scope Z_scope.

(** ** Exceptions *)

Inductive PyError : Set :=
  | ValueError
  | IndexError
  | TypeError
  | KeyError
  | ZeroDivisionError.

Inductive result (A : Type) : Type :=
  | Ok (a : A)
  | Err (e : PyError).
Arguments Ok {A} a.
Arguments Err {A} e.

#[global] Instance result_ret : MRet result := λ A a, Ok a.
#[global] Instance result_bind : MBind result := λ A B f m,
  match m with
  | Ok a => f a
  | Err e => Err e
  end.

Definition is_Ok {A} (r : result A) : Prop := ∃ a, r = Ok a.

(** A [for] loop whose body may raise: the loop stops at the first
    exception. *)
Fixpoint foldM {A S : Type} (f : S → A → result S) (s : S) (l : list A)
  : result S :=
  match l with
  | [] => Ok s
  | x :: l' => s' ← f s x; foldM f s' l'
  end.

(** A list comprehension whose element expression may raise. *)
Fixpoint mapM_result {A B : Type} (f : A → result B) (l : list A)
  : result (list B) :=
  match l with
  | [] => Ok []
  | x :: l' => y ← f x; ys ← mapM_result f l'; Ok (y :: ys)
  end.

(** ** Python built-ins used by the source *)

Module Py.

(** [l[i]] on a list: negative subscripts count from the end, anything
    outside [-len(l), len(l)) raises [IndexError]. *)
Definition getitem {A} (l : list A) (i : Z) : result A :=
  let n := Z.of_nat (length l) in
  let j := if decide (i < 0) then i + n else i in
  if decide (0 ≤ j < n) then
    match l !! Z.to_nat j with
    | Some x => Ok x
    | None => Err IndexError
    end
  else Err IndexError.

(** [l.index(x)]: position of the first element equal to [x];
    [ValueError] when there is none. *)
Definition index (l : list string) (x : string) : result Z :=
  match list_find (λ y, y = x) l with
  | Some (i, _) => Ok (Z.of_nat i)
  | None => Err ValueError
  end.

(** [str(n)] of an integer, as an f-string renders it. *)
Definition str (n : Z) : string := pretty n.

(** [str(x)] of an [Optional[int]] field. *)
Definition str_opt (o : option Z) : string :=
  match o with
  | Some n => str n
  | None => "None"
  end.

(** [a % b] and [a // b] on integers. Python rounds the quotient towards
    minus infinity, as [Z.div] and [Z.modulo] do; a zero divisor raises. *)
Definition mod_ (a b : Z) : result Z :=
  if decide (b = 0) then Err ZeroDivisionError else Ok (a `mod` b).
Definition floordiv (a b : Z) : result Z :=
  if decide (b = 0) then Err ZeroDivisionError else Ok (a `div` b).

(** [a / b] on integers is true division and gives a float. The quotient
    is modelled by the exact rational. For the default [div = 8] (a power
    of two) and numerators below 2^53 the float quotient is exact, so the
    two agree there. *)
Definition truediv (a b : Z) : result Q :=
  if decide (b = 0) then Err ZeroDivisionError
  else Ok (Qdiv (inject_Z a) (inject_Z b)).

(** [s.split(sep)] for a one-character separator. *)
Fixpoint split (sep : ascii) (s : string) : list string :=
  match s with
  | EmptyString => [EmptyString]
  | String c s' =>
      if decide (c = sep) then EmptyString :: split sep s'
      else match split sep s' with
           | [] => [String c EmptyString]
           | p :: ps => String c p :: ps
           end
  end.

Definition digit_of (c : ascii) : option Z :=
  let n := Z.of_N (N_of_ascii c) in
  if decide (48 ≤ n ≤ 57) then Some (n - 48) else None.

Fixpoint int_digits (acc : Z) (s : string) : result Z :=
  match s with
  | EmptyString => Ok acc
  | String c s' =>
      match digit_of c with
      | Some d => int_digits (10 * acc + d) s'
      | None => Err ValueError
      end
  end.

(** [int(s)] on a string: an optional sign followed by one or more ASCII
    digits; anything else raises [ValueError]. (Python also accepts
    surrounding white space; after [split('_')] no underscore is left.
    No string of the vocabulary has either.) *)
Definition int (s : string) : result Z :=
  match s with
  | EmptyString => Err ValueError
  | String "-" (String c s') => n ← int_digits 0 (String c s'); Ok (- n)
  | String "+" (String c s') => int_digits 0 (String c s')
  | _ => int_digits 0 s
  end.

(** [range(n)] *)
Definition range (n : Z) : list Z := seqZ 0 n.

End Py.

(** ** multitrack_vocabulary.py *)

(** *** Manifest constants *)

Definition note_on_events : Z := 128.
Definition note_off_events : Z := note_on_events.
Definition time_shift_events : Z := 125.
Definition velocity_events : Z := 32.

Definition max_instruments : Z := 16.
Definition instrument_events : Z := 128.

Definition LTH : Z := 1000.
Definition DIV : Z := LTH `div` time_shift_events.
Definition BIN_STEP : Z := 128 `div` velocity_events.

(** *** The vocabulary *)

Definition note_on_vocab : list string :=
  inst ← Py.range max_instruments;
  i ← Py.range note_on_events;
  ["note_on_" +:+ Py.str i +:+ "_" +:+ Py.str inst].

Definition note_off_vocab : list string :=
  inst ← Py.range max_instruments;
  i ← Py.range note_off_events;
  ["note_off_" +:+ Py.str i +:+ "_" +:+ Py.str inst].

Definition time_shift_vocab : list string :=
  i ← Py.range time_shift_events; ["time_shift_" +:+ Py.str i].

Definition velocity_vocab : list string :=
  i ← Py.range velocity_events; ["set_velocity_" +:+ Py.str i].

Definition instrument_vocab : list string :=
  i ← Py.range instrument_events; ["set_instrument_" +:+ Py.str i].

Definition vocab : list string :=
  ["<pad>"] ++ note_on_vocab ++ note_off_vocab ++ time_shift_vocab
    ++ velocity_vocab ++ instrument_vocab ++ ["<start>"; "<end>"].

Definition vocab_size : Z := Z.of_nat (length vocab).

(** The special tokens are module-level constants, evaluated once when the
    module is imported; the three look-ups do not raise there. *)
Definition from_Ok {A} (d : A) (r : result A) : A :=
  match r with Ok a => a | Err _ => d end.

Definition pad_token : Z := from_Ok 0 (Py.index vocab "<pad>").
Definition start_token : Z := from_Ok 0 (Py.index vocab "<start>").
Definition end_token : Z := from_Ok 0 (Py.index vocab "<end>").

(** *** Helper functions *)

(** [events_to_indices] and [indices_to_events], with the default
    [_vocab = vocab]. *)
Definition events_to_indices (event_list : list string) : result (list Z) :=
  mapM_result (Py.index vocab) event_list.

Definition indices_to_events (index_list : list Z) : result (list string) :=
  mapM_result (Py.getitem vocab) index_list.

(** [velocity_to_bin(velocity, step)] and, with the default
    [step = BIN_STEP], [velocity_to_bin(velocity)]. *)
Definition velocity_to_bin_step (velocity step : Z) : result Z :=
  r ← Py.mod_ 128 step;
  if decide (r ≠ 0) then Err ValueError
  else if negb (bool_decide (0 ≤ velocity ≤ 127)) then Err ValueError
  else Py.floordiv velocity step.

Definition velocity_to_bin (velocity : Z) : result Z :=
  velocity_to_bin_step velocity BIN_STEP.

(** [bin_to_velocity(_bin, step)] and [bin_to_velocity(_bin)]; the product
    of two integers is an integer, which [int] leaves as it is. *)
Definition bin_to_velocity_step (_bin step : Z) : result Z :=
  if negb (bool_decide (0 ≤ _bin * step ≤ 127)) then Err ValueError
  else Ok (_bin * step).

Definition bin_to_velocity (_bin : Z) : result Z :=
  bin_to_velocity_step _bin BIN_STEP.

(** [round_]: [a // 1] is the floor and [a % 1] the fractional part; a
    half is rounded up. *)
Definition round_ (a : Q) : Z :=
  let b := Qfloor a in
  let decimal_digits := Qminus a (inject_Z b) in
  let adder := if Qle_bool (1 # 2) decimal_digits then 1 else 0 in
  b + adder.

(** [time_cutter(time, lth, div)] and, with the defaults [lth = LTH] and
    [div = DIV], [time_cutter(time)]. [range] of a negative number is
    empty. *)
Definition time_cutter_with (time lth div : Z) : result (list Z) :=
  r ← Py.mod_ lth div;
  if decide (r ≠ 0) then Err ValueError
  else
    blocks ← Py.floordiv time lth;
    full ← Py.truediv lth div;
    let time_shifts := (λ _, round_ full) <$> Py.range blocks in
    rest ← Py.mod_ time lth;
    q ← Py.truediv rest div;
    let leftover_time_shift := round_ q in
    if decide (leftover_time_shift > 0)
    then Ok (time_shifts ++ [leftover_time_shift])
    else Ok time_shifts.

Definition time_cutter (time : Z) : result (list Z) :=
  time_cutter_with time LTH DIV.

(** [time_to_events] appends to the two lists it is given; the lists are
    threaded through. [midi_parser] always passes both. *)
Definition time_to_events (delta_time : Z)
    (event_list : list string) (index_list : list Z)
  : result (list string * list Z) :=
  time ← time_cutter delta_time;
  let base_idx := Z.of_nat (length note_on_vocab)
                  + Z.of_nat (length note_off_vocab) in
  foldM (λ '(event_list, index_list) i,
           let idx := base_idx + i in
           ev ← Py.getitem vocab idx;
           Ok (event_list ++ [ev], index_list ++ [idx]))
        (event_list, index_list) time.

(** [get_note_event_indices]; [base = 1] skips the pad token. *)
Definition get_note_event_indices (note instrument : Z) (is_on : bool)
  : result Z :=
  if negb (bool_decide (0 ≤ note ≤ 127)) then Err ValueError
  else if negb (bool_decide (0 ≤ instrument < max_instruments))
  then Err ValueError
  else
    let base := 1 in
    let base := if negb is_on
                then base + Z.of_nat (length note_on_vocab) else base in
    Ok (base + instrument * note_on_events + note).

(** ** multitrack_tokenizer.py *)

(** *** mido messages

    The messages of the [mido] library that the tokenizer reads or builds.
    Every message carries a [time]; a meta message has [is_meta] set. *)

Inductive Message : Type :=
  | MetaTrackName (name : string) (time : Z)
  | MetaSetTempo (tempo : Z) (time : Z)
  | MetaOther (time : Z)
  | NoteOn (channel note velocity time : Z)
  | NoteOff (channel note velocity time : Z)
  | ProgramChange (channel program time : Z)
  | OtherMessage (time : Z).

(** A [MidiTrack] is a list of messages, and a [MidiFile] is used through
    [mid.tracks], its list of tracks. *)
Abbreviation MidiTrack := (list Message).
Abbreviation MidiFile := (list (list Message)).

Definition msg_time (msg : Message) : Z :=
  match msg with
  | MetaTrackName _ t | MetaSetTempo _ t | MetaOther t
  | NoteOn _ _ _ t | NoteOff _ _ _ t | ProgramChange _ _ t
  | OtherMessage t => t
  end.

Definition is_meta (msg : Message) : bool :=
  match msg with
  | MetaTrackName _ _ | MetaSetTempo _ _ | MetaOther _ => true
  | _ => false
  end.

(** [mido.Message(...)] checks its arguments: a channel lies in 0..15 and a
    data byte (note, velocity, program) in 0..127, else [ValueError]. *)
Module mido.

Definition check_channel (channel : Z) : result unit :=
  if bool_decide (0 ≤ channel ≤ 15) then Ok () else Err ValueError.

Definition check_data_byte (value : Z) : result unit :=
  if bool_decide (0 ≤ value ≤ 127) then Ok () else Err ValueError.

Definition program_change (program channel time : Z) : result Message :=
  _ ← check_data_byte program; _ ← check_channel channel;
  Ok (ProgramChange channel program time).

Definition note_on (note velocity channel time : Z) : result Message :=
  _ ← check_data_byte note; _ ← check_data_byte velocity;
  _ ← check_channel channel;
  Ok (NoteOn channel note velocity time).

Definition note_off (note velocity channel time : Z) : result Message :=
  _ ← check_data_byte note; _ ← check_data_byte velocity;
  _ ← check_channel channel;
  Ok (NoteOff channel note velocity time).

(** [MetaMessage("set_tempo", tempo=tempo, time=time)]: the tempo has to
    fit the three bytes of the message. *)
Definition set_tempo (tempo time : Z) : result Message :=
  if bool_decide (0 ≤ tempo ≤ 16777215) then Ok (MetaSetTempo tempo time)
  else Err ValueError.

End mido.

(** *** MidiEvent *)

Inductive EventType : Set := note_on | note_off | set_instrument.

(** The string held by the [type] field. *)
Definition type_str (t : EventType) : string :=
  match t with
  | note_on => "note_on"
  | note_off => "note_off"
  | set_instrument => "set_instrument"
  end.

(** The dataclass. [instrument] and [time] are given at both places where
    the tokenizer builds a [MidiEvent]; the other fields are left at their
    default [None] at one of them. *)
Module MidiEvent.
Record t : Type := mk {
  type : EventType;
  note : option Z;
  velocity : option Z;
  instrument : Z;
  time : Z;
  program : option Z
}.
End MidiEvent.

(** *** midi_parser, first pass: events with absolute times *)

Record collector : Type := mkCollector {
  c_tempo : Z;
  c_channel_programs : gmap Z Z;
  c_absolute_events : list MidiEvent.t;
  c_current_time : Z
}.

(** The body of [for msg in track]. *)
Definition collect_msg (st : collector) (msg : Message) : collector :=
  let current_time := c_current_time st + msg_time msg in
  let st := mkCollector (c_tempo st) (c_channel_programs st)
                        (c_absolute_events st) current_time in
  if is_meta msg then
    match msg with
    | MetaSetTempo tempo _ =>
        if decide (c_tempo st = 0)
        then mkCollector tempo (c_channel_programs st)
                         (c_absolute_events st) current_time
        else st
    | _ => st
    end
  else
  match msg with
  | NoteOn channel note_ velocity_ _ =>
      let msg_type := if decide (velocity_ = 0) then note_off else note_on in
      let instrument := default 0 (c_channel_programs st !! channel) in
      mkCollector (c_tempo st) (c_channel_programs st)
        (c_absolute_events st ++
           [MidiEvent.mk msg_type (Some note_) (Some velocity_)
                         instrument current_time None])
        current_time
  | NoteOff channel note_ velocity_ _ =>
      let instrument := default 0 (c_channel_programs st !! channel) in
      mkCollector (c_tempo st) (c_channel_programs st)
        (c_absolute_events st ++
           [MidiEvent.mk note_off (Some note_) (Some velocity_)
                         instrument current_time None])
        current_time
  | ProgramChange channel program_ _ =>
      mkCollector (c_tempo st) (<[channel := program_]> (c_channel_programs st))
        (c_absolute_events st ++
           [MidiEvent.mk set_instrument None None
                         channel current_time (Some program_)])
        current_time
  | _ => st
  end.

(** [tempo = 0], [channel_programs = {}], [absolute_events = []] and
    [current_time = 0], all set once, before [for track in mid.tracks]. *)
Definition collect_init : collector := mkCollector 0 ∅ [] 0.

Definition collect (mid : MidiFile) : collector :=
  foldl (λ st track, foldl collect_msg st track) collect_init mid.

(** [absolute_events.sort(key=lambda x: x.time)]. Python's sort is stable,
    and the stable ordering of a list by a key is unique; it is computed
    here by insertion. *)
Fixpoint insert_by_time (x : MidiEvent.t) (l : list MidiEvent.t)
  : list MidiEvent.t :=
  match l with
  | [] => [x]
  | y :: l' =>
      if decide (MidiEvent.time x ≤ MidiEvent.time y) then x :: y :: l'
      else y :: insert_by_time x l'
  end.

Definition sort_by_time (l : list MidiEvent.t) : list MidiEvent.t :=
  foldr insert_by_time [] l.

(** *** midi_parser, second pass: events to tokens *)

Record encoder : Type := mkEncoder {
  e_event_list : list string;
  e_index_list : list Z;
  e_last_time : Z
}.

Definition emit (ev : string) (st : encoder) : result encoder :=
  idx ← Py.index vocab ev;
  Ok (mkEncoder (e_event_list st ++ [ev]) (e_index_list st ++ [idx])
                (e_last_time st)).

(** [velocity_to_bin] compares its argument with 0: [None] is a
    [TypeError]. *)
Definition velocity_to_bin_opt (velocity : option Z) : result Z :=
  match velocity with
  | Some v => velocity_to_bin v
  | None => Err TypeError
  end.

(** [if event.time > last_time: ...], the first statement of the loop
    body. *)
Definition advance_time (st : encoder) (event : MidiEvent.t) : result encoder :=
  if decide (MidiEvent.time event > e_last_time st) then
    let delta_time := MidiEvent.time event - e_last_time st in
    '(el, il) ← time_to_events delta_time (e_event_list st) (e_index_list st);
    Ok (mkEncoder el il (MidiEvent.time event))
  else Ok st.

(** The body of [for event in absolute_events]. *)
Definition encode_event (st : encoder) (event : MidiEvent.t) : result encoder :=
  st ← advance_time st event;
  match MidiEvent.type event with
  | set_instrument =>
      let event_str :=
        "set_instrument_" +:+ Py.str_opt (MidiEvent.program event) in
      emit event_str st
  | note_on =>
      vel_bin ← velocity_to_bin_opt (MidiEvent.velocity event);
      let vel_str := "set_velocity_" +:+ Py.str vel_bin in
      st ← emit vel_str st;
      let note_str :=
        type_str (MidiEvent.type event) +:+ "_"
          +:+ Py.str_opt (MidiEvent.note event) +:+ "_"
          +:+ Py.str (MidiEvent.instrument event) in
      emit note_str st
  | note_off =>
      let note_str :=
        type_str (MidiEvent.type event) +:+ "_"
          +:+ Py.str_opt (MidiEvent.note event) +:+ "_"
          +:+ Py.str (MidiEvent.instrument event) in
      emit note_str st
  end.

(** The second pass on its own: [<start>], the events, [<end>]. *)
Definition encode_events (absolute_events : list MidiEvent.t)
  : result (list Z * list string) :=
  let st := mkEncoder ["<start>"] [start_token] 0 in
  st ← foldM encode_event st absolute_events;
  Ok (e_index_list st ++ [end_token], e_event_list st ++ ["<end>"]).

(** [midi_parser(mid=mid)]. Reading the file named by [fname] is left to
    mido; the result is the index list (the payload of the [LongTensor]),
    the event list and the tempo. *)
Definition midi_parser (mid : MidiFile)
  : result (list Z * list string * Z) :=
  let st := collect mid in
  let absolute_events := sort_by_time (c_absolute_events st) in
  '(index_list, event_list) ← encode_events absolute_events;
  Ok (index_list, event_list, c_tempo st).

(** *** list_parser *)

(** An element of [index_list]: an [int] (also what [.item()] gives for an
    element of a [LongTensor]) or some other object. *)
Inductive PyObj : Type :=
  | PyInt (i : Z)
  | PyOther.

Definition isinstance_int (o : PyObj) : bool :=
  match o with PyInt _ => true | PyOther => false end.

(** Subscripting [vocab] by an object that is not an integer is a
    [TypeError]; the check before [indices_to_events] leaves integers only. *)
Definition as_index (o : PyObj) : result Z :=
  match o with PyInt i => Ok i | PyOther => Err TypeError end.

(** The state of the decoding loop. [mid.tracks] is the list [d_tracks];
    [instrument_tracks] maps an instrument to its track object, which is an
    element of [mid.tracks]: it is kept as the position of that track in
    [d_tracks], and appending to the track updates the list in place. *)
Record decoder : Type := mkDecoder {
  d_tracks : list MidiTrack;
  d_instrument_tracks : gmap Z nat;
  d_current_instrument : Z;
  d_current_velocity : Z;
  d_delta_time : Z
}.

(** [if key not in instrument_tracks: track = MidiTrack();
     track.append(program_change); instrument_tracks[key] = track;
     mid.tracks.append(track)] *)
Definition ensure_track (key program_ : Z) (st : decoder) : result decoder :=
  match d_instrument_tracks st !! key with
  | Some _ => Ok st
  | None =>
      msg ← mido.program_change program_ (key `mod` 16) 0;
      Ok (mkDecoder (d_tracks st ++ [[msg]])
                    (<[key := length (d_tracks st)]> (d_instrument_tracks st))
                    (d_current_instrument st) (d_current_velocity st)
                    (d_delta_time st))
  end.

(** [event.split('_')[-1]] *)
Definition last_part (event : string) : result string :=
  Py.getitem (Py.split "_" event) (-1).

(** The body of [for event in event_list]. *)
Definition list_parser_step (st : decoder) (event : string) : result decoder :=
  if bool_decide (event ∈ ["<pad>"; "<start>"; "<end>"]) then Ok st
  else if String.prefix "time_shift_" event then
    time_value ← last_part event ≫= Py.int;
    Ok (mkDecoder (d_tracks st) (d_instrument_tracks st)
                  (d_current_instrument st) (d_current_velocity st)
                  (d_delta_time st + time_value * DIV))
  else if String.prefix "set_velocity_" event then
    vel_bin ← last_part event ≫= Py.int;
    current_velocity ← bin_to_velocity vel_bin;
    Ok (mkDecoder (d_tracks st) (d_instrument_tracks st)
                  (d_current_instrument st) current_velocity
                  (d_delta_time st))
  else if String.prefix "set_instrument_" event then
    program_ ← last_part event ≫= Py.int;
    let st := mkDecoder (d_tracks st) (d_instrument_tracks st)
                        program_ (d_current_velocity st) (d_delta_time st) in
    ensure_track (d_current_instrument st) program_ st
  else if String.prefix "note_on_" event || String.prefix "note_off_" event then
    let parts := Py.split "_" event in
    p0 ← Py.getitem parts 0;
    p1 ← Py.getitem parts 1;
    let note_type := p0 +:+ "_" +:+ p1 in
    note_ ← Py.getitem parts 2 ≫= Py.int;
    instrument_ ← Py.getitem parts 3 ≫= Py.int;
    st ← ensure_track instrument_ 0 st;
    msg ← (if String.eqb note_type "note_on"
           then mido.note_on note_ (d_current_velocity st)
                             (instrument_ `mod` 16) (d_delta_time st)
           else mido.note_off note_ 0
                              (instrument_ `mod` 16) (d_delta_time st));
    match d_instrument_tracks st !! instrument_ with
    | Some pos =>
        Ok (mkDecoder (alter (λ track, track ++ [msg]) pos (d_tracks st))
                      (d_instrument_tracks st)
                      (d_current_instrument st) (d_current_velocity st) 0)
    | None => Err KeyError
    end
  else Ok st.

(** The state after the metadata track has been added: [mid.tracks] holds
    the track of the track_name and set_tempo messages, and building the
    set_tempo message raises on a tempo that does not fit it. A track_name
    message takes any string. *)
Definition initial_decoder (fname : string) (tempo : Z) : result decoder :=
  set_tempo ← mido.set_tempo tempo 0;
  Ok (mkDecoder [[MetaTrackName fname 0; set_tempo]] ∅ 0 64 0).

(** The loop over an event list, from that state. *)
Definition decode_events (event_list : list string) (fname : string)
    (tempo : Z) : result decoder :=
  st ← initial_decoder fname tempo;
  foldM list_parser_step st event_list.

Definition list_parser (index_list : option (list PyObj))
    (event_list : option (list string)) (fname : string) (tempo : Z)
  : result MidiFile :=
  if negb (xorb (bool_decide (index_list = None))
                (bool_decide (event_list = None)))
  then Err ValueError
  else
    event_list ←
      match index_list with
      | Some index_list =>
          if negb (forallb isinstance_int index_list) then Err ValueError
          else mapM_result as_index index_list ≫= indices_to_events
      | None => Ok (default [] event_list)
      end;
    st ← decode_events event_list fname tempo;
    Ok (d_tracks st).

(** The defaults of [list_parser]. *)
Definition default_fname : string := "output".
Definition default_tempo : Z := 512820.

Definition list_parser_indices (index_list : list Z) : result MidiFile :=
  list_parser (Some (PyInt <$> index_list)) None default_fname default_tempo.

(** * Notions used in the statements

    ** Sums and characters *)

(** [sum(l)] *)
Definition sumZ (l : list Z) : Z := foldr Z.add 0 l.

(** The last unit of [time_cutter] with the default [lth] and [div]: the
    remainder below [LTH], in units of [DIV], rounded half up. *)
Definition leftover (time : Z) : Z := (time `mod` LTH + 4) `div` 8.

(** The characters of a string. *)
Fixpoint chars (s : string) : list ascii :=
  match s with
  | EmptyString => []
  | String c s' => c :: chars s'
  end.

Definition is_digit (c : ascii) : Prop := is_Some (Py.digit_of c).

Definition no_underscore (s : string) : Prop := "_"%char ∉ chars s.

(** ** The vocabulary as symbols *)

(** The tokens of the vocabulary as a tagged type, with the string each one
    is written as. The vocabulary itself is the list of strings [vocab];
    this type names its entries in the proofs. *)
Inductive Symbol : Type :=
  | PAD
  | START
  | END
  | NOTE_ON (note instrument : Z)
  | NOTE_OFF (note instrument : Z)
  | TIME_SHIFT (unit : Z)
  | SET_VELOCITY (bin : Z)
  | SET_INSTRUMENT (program : Z).

(** The string of a symbol, as the comprehensions of [vocab] and the
    f-strings of [midi_parser] write it. *)
Definition render (s : Symbol) : string :=
  match s with
  | PAD => "<pad>"
  | START => "<start>"
  | END => "<end>"
  | NOTE_ON n i => "note_on_" +:+ Py.str n +:+ "_" +:+ Py.str i
  | NOTE_OFF n i => "note_off_" +:+ Py.str n +:+ "_" +:+ Py.str i
  | TIME_SHIFT u => "time_shift_" +:+ Py.str u
  | SET_VELOCITY b => "set_velocity_" +:+ Py.str b
  | SET_INSTRUMENT p => "set_instrument_" +:+ Py.str p
  end.

(** The symbols that occur in [vocab]. *)
Definition constructible (s : Symbol) : Prop :=
  match s with
  | PAD | START | END => True
  | NOTE_ON n i | NOTE_OFF n i =>
      0 ≤ n < note_on_events ∧ 0 ≤ i < max_instruments
  | TIME_SHIFT u => 0 ≤ u < time_shift_events
  | SET_VELOCITY b => 0 ≤ b < velocity_events
  | SET_INSTRUMENT p => 0 ≤ p < instrument_events
  end.

(** The position of a symbol in the concatenation that defines [vocab],
    by offsets, and the symbol at a position. *)
Definition index_of_symbol (s : Symbol) : Z :=
  match s with
  | PAD => 0
  | NOTE_ON n i => 1 + i * 128 + n
  | NOTE_OFF n i => 2049 + i * 128 + n
  | TIME_SHIFT u => 4097 + u
  | SET_VELOCITY b => 4222 + b
  | SET_INSTRUMENT p => 4254 + p
  | START => 4382
  | END => 4383
  end.

Definition symbol_of_index (i : Z) : Symbol :=
  if decide (i = 0) then PAD
  else if decide (i < 2049) then NOTE_ON ((i - 1) `mod` 128) ((i - 1) `div` 128)
  else if decide (i < 4097)
       then NOTE_OFF ((i - 2049) `mod` 128) ((i - 2049) `div` 128)
  else if decide (i < 4222) then TIME_SHIFT (i - 4097)
  else if decide (i < 4254) then SET_VELOCITY (i - 4222)
  else if decide (i < 4382) then SET_INSTRUMENT (i - 4254)
  else if decide (i = 4382) then START
  else END.

(** What the tests of [list_parser] make of an event string. *)
Definition read_int (r : result string) : option Z :=
  match r ≫= Py.int with Ok n => Some n | Err _ => None end.

Definition read_symbol (event : string) : option Symbol :=
  if String.eqb event "<pad>" then Some PAD
  else if String.eqb event "<start>" then Some START
  else if String.eqb event "<end>" then Some END
  else if String.prefix "time_shift_" event
       then TIME_SHIFT <$> read_int (last_part event)
  else if String.prefix "set_velocity_" event
       then SET_VELOCITY <$> read_int (last_part event)
  else if String.prefix "set_instrument_" event
       then SET_INSTRUMENT <$> read_int (last_part event)
  else if String.prefix "note_on_" event then
    n ← read_int (Py.getitem (Py.split "_" event) 2);
    i ← read_int (Py.getitem (Py.split "_" event) 3);
    Some (NOTE_ON n i)
  else if String.prefix "note_off_" event then
    n ← read_int (Py.getitem (Py.split "_" event) 2);
    i ← read_int (Py.getitem (Py.split "_" event) 3);
    Some (NOTE_OFF n i)
  else None.

(** [f i s] holds of every entry [s] of [l], [i] counting the entries from
    the given start. *)
Fixpoint check_from (f : Z → string → bool) (i : Z) (l : list string) : bool :=
  match l with
  | [] => true
  | s :: l' => f i s && check_from f (i + 1) l'
  end.

(** ** Quantizer *)

(** The error bound of a gap counted per returned unit. *)
Definition within_per_unit_error (d : Z) (units : list Z) : Prop :=
  Z.abs (DIV * sumZ units - d) ≤ DIV `div` 2 * Z.of_nat (length units).

(** The local [base_idx] of [time_to_events]. *)
Definition base_idx : Z :=
  Z.of_nat (length note_on_vocab) + Z.of_nat (length note_off_vocab).

(** ** Encoder *)

(** The order of the sort key. *)
Definition by_time (x y : MidiEvent.t) : Prop :=
  MidiEvent.time x ≤ MidiEvent.time y.

(** A NOTE_ON token and a SET_VELOCITY token, as event strings. *)
Definition is_NOTE_ON (ev : string) : Prop :=
  String.prefix "note_on_" ev = true.
Definition is_SET_VELOCITY (ev : string) : Prop :=
  String.prefix "set_velocity_" ev = true.

(** The positions of the NOTE_ON block and of the SET_VELOCITY block in
    [vocab]. *)
Definition note_on_index (i : Z) : Prop :=
  1 ≤ i < 1 + Z.of_nat (length note_on_vocab).
Definition set_velocity_index (i : Z) : Prop :=
  let first := 1 + Z.of_nat (length note_on_vocab)
               + Z.of_nat (length note_off_vocab)
               + Z.of_nat (length time_shift_vocab) in
  first ≤ i < first + Z.of_nat (length velocity_vocab).

(** Every element with [is_a] comes right after an element with [is_b]. *)
Definition preceded_by {A} (is_a is_b : A → Prop) (l : list A) : Prop :=
  ∀ (k : nat) (x : A), l !! k = Some x → is_a x →
    ∃ (k' : nat) (y : A), k = S k' ∧ l !! k' = Some y ∧ is_b y.

(** An index and the event string it stands for. *)
Definition denotes (i : Z) (ev : string) : Prop :=
  0 ≤ i < vocab_size ∧ Py.getitem vocab i = Ok ev.

(** What the second pass keeps true of its two lists. *)
Definition encoder_inv (st : encoder) : Prop :=
  Forall2 denotes (e_index_list st) (e_event_list st)
  ∧ preceded_by is_NOTE_ON is_SET_VELOCITY (e_event_list st)
  ∧ head (e_event_list st) = Some "<start>"
  ∧ head (e_index_list st) = Some start_token.

(** One note: note-on at time 0, note-off 500 later. *)
Definition scenario : MidiFile := [[NoteOn 0 60 100 0; NoteOff 0 60 0 500]].

(** The fields that the first pass fills in for each type of event. *)
Definition wf_event (e : MidiEvent.t) : Prop :=
  match MidiEvent.type e with
  | set_instrument => is_Some (MidiEvent.program e)
  | note_on | note_off =>
      is_Some (MidiEvent.note e) ∧ is_Some (MidiEvent.velocity e)
  end.

(** The token strings that the second pass derives from an event. *)
Definition note_str (e : MidiEvent.t) : string :=
  type_str (MidiEvent.type e) +:+ "_" +:+ Py.str_opt (MidiEvent.note e)
    +:+ "_" +:+ Py.str (MidiEvent.instrument e).

Definition derived_strings (e : MidiEvent.t) : list string :=
  match MidiEvent.type e with
  | set_instrument => ["set_instrument_" +:+ Py.str_opt (MidiEvent.program e)]
  | note_on =>
      match velocity_to_bin_opt (MidiEvent.velocity e) with
      | Ok vel_bin => ["set_velocity_" +:+ Py.str vel_bin; note_str e]
      | Err _ => [note_str e]
      end
  | note_off => [note_str e]
  end.

(** The channel of a note message. *)
Definition note_channel (msg : Message) : option Z :=
  match msg with
  | NoteOn c _ _ _ | NoteOff c _ _ _ => Some c
  | _ => None
  end.

(** Two tracks; the second starts with a note at delta 0. *)
Definition two_tracks : MidiFile :=
  [[NoteOn 0 60 100 0; NoteOff 0 60 0 500]; [NoteOn 1 64 100 0]].

(** ** Decoder *)

(** The tempos that a set_tempo message takes. *)
Definition tempo_fits (tempo : Z) : Prop := 0 ≤ tempo ≤ 16777215.

(** The state of the decoding loop before the first token, for such a
    tempo. *)
Definition meta_decoder (fname : string) (tempo : Z) : decoder :=
  mkDecoder [[MetaTrackName fname 0; MetaSetTempo tempo 0]] ∅ 0 64 0.

(** The loop body of [list_parser] on the string of a symbol. *)
Definition decode_symbol (st : decoder) (s : Symbol) : result decoder :=
  match s with
  | PAD | START | END => Ok st
  | TIME_SHIFT u =>
      Ok (mkDecoder (d_tracks st) (d_instrument_tracks st)
                    (d_current_instrument st) (d_current_velocity st)
                    (d_delta_time st + u * DIV))
  | SET_VELOCITY b =>
      current_velocity ← bin_to_velocity b;
      Ok (mkDecoder (d_tracks st) (d_instrument_tracks st)
                    (d_current_instrument st) current_velocity
                    (d_delta_time st))
  | SET_INSTRUMENT p =>
      ensure_track p p
        (mkDecoder (d_tracks st) (d_instrument_tracks st)
                   p (d_current_velocity st) (d_delta_time st))
  | NOTE_ON n i =>
      st ← ensure_track i 0 st;
      msg ← mido.note_on n (d_current_velocity st) (i `mod` 16)
                         (d_delta_time st);
      match d_instrument_tracks st !! i with
      | Some pos =>
          Ok (mkDecoder (alter (λ track, track ++ [msg]) pos (d_tracks st))
                        (d_instrument_tracks st)
                        (d_current_instrument st) (d_current_velocity st) 0)
      | None => Err KeyError
      end
  | NOTE_OFF n i =>
      st ← ensure_track i 0 st;
      msg ← mido.note_off n 0 (i `mod` 16) (d_delta_time st);
      match d_instrument_tracks st !! i with
      | Some pos =>
          Ok (mkDecoder (alter (λ track, track ++ [msg]) pos (d_tracks st))
                        (d_instrument_tracks st)
                        (d_current_instrument st) (d_current_velocity st) 0)
      | None => Err KeyError
      end
  end.

(** A negative subscript of [vocab], counted from the end. *)
Definition wrap_index (i : Z) : Z :=
  if decide (i < 0) then i + vocab_size else i.

(** ** Encoding, then decoding *)







(** The symbols that the second pass emits for an event, after the time
    shifts. *)
Definition event_tokens (e : MidiEvent.t) (syms : list Symbol) : Prop :=
  Forall constructible syms ∧
  match MidiEvent.type e with
  | set_instrument =>
      ∃ p, MidiEvent.program e = Some p ∧ syms = [SET_INSTRUMENT p]
  | note_on =>
      ∃ n v b, MidiEvent.note e = Some n ∧ MidiEvent.velocity e = Some v
               ∧ velocity_to_bin v = Ok b
               ∧ syms = [SET_VELOCITY b; NOTE_ON n (MidiEvent.instrument e)]
  | note_off =>
      ∃ n, MidiEvent.note e = Some n
           ∧ syms = [NOTE_OFF n (MidiEvent.instrument e)]
  end.




(** ** Further notions: the first pass *)

(** The tempo of a set_tempo message. *)
Definition msg_tempo (msg : Message) : option Z :=
  match msg with
  | MetaSetTempo tempo _ => Some tempo
  | _ => None
  end.

(** The first tempo other than 0 among the set_tempo messages, or 0. *)
Definition first_tempo (msgs : list Message) : Z :=
  default 0 (head (filter (λ tempo, tempo ≠ 0) (omap msg_tempo msgs))).

(** The type of the event that the first pass makes of a message, if it
    makes one. *)
Definition msg_event_type (msg : Message) : option EventType :=
  match msg with
  | NoteOn _ _ velocity_ _ =>
      Some (if decide (velocity_ = 0) then note_off else note_on)
  | NoteOff _ _ _ _ => Some note_off
  | ProgramChange _ _ _ => Some set_instrument
  | _ => None
  end.

(** The ranges of the fields of a message that mido has read or built. *)
Definition valid_message (msg : Message) : Prop :=
  match msg with
  | NoteOn c n v _ | NoteOff c n v _ =>
      0 ≤ c ≤ 15 ∧ 0 ≤ n ≤ 127 ∧ 0 ≤ v ≤ 127
  | ProgramChange c p _ => 0 ≤ c ≤ 15 ∧ 0 ≤ p ≤ 127
  | _ => True
  end.

(** ** Further notions: the second pass *)

(** The events whose tokens are all in the vocabulary. *)
Definition encodable (e : MidiEvent.t) : Prop :=
  match MidiEvent.type e with
  | set_instrument =>
      ∃ p, MidiEvent.program e = Some p ∧ 0 ≤ p < instrument_events
  | note_on =>
      ∃ n v, MidiEvent.note e = Some n ∧ MidiEvent.velocity e = Some v
             ∧ 0 ≤ n < note_on_events ∧ 0 ≤ v ≤ 127
             ∧ 0 ≤ MidiEvent.instrument e < max_instruments
  | note_off =>
      ∃ n, MidiEvent.note e = Some n ∧ 0 ≤ n < note_off_events
           ∧ 0 ≤ MidiEvent.instrument e < max_instruments
  end.

(** A symbol other than the three special tokens. *)
Definition is_event_symbol (s : Symbol) : Prop :=
  match s with
  | PAD | START | END => False
  | _ => True
  end.

(** ** Further notions: the decoding loop *)

(** The time units of a token. *)
Definition shift_of (s : Symbol) : Z :=
  match s with TIME_SHIFT u => u | _ => 0 end.

(** The time units read since the last note token: what [delta_time]
    holds, in units of [DIV]. *)
Definition pending_step (acc : Z) (s : Symbol) : Z :=
  match s with
  | TIME_SHIFT u => acc + u
  | NOTE_ON _ _ | NOTE_OFF _ _ => 0
  | _ => acc
  end.

Definition pending_units (syms : list Symbol) : Z := foldl pending_step 0 syms.

(** The sum of the delta times of the messages of a file. *)
Definition file_time (mid : MidiFile) : Z := sumZ (msg_time <$> concat mid).

(** The key of [instrument_tracks] that a token names. *)
Definition instrument_of (s : Symbol) : option Z :=
  match s with
  | NOTE_ON _ i | NOTE_OFF _ i => Some i
  | SET_INSTRUMENT p => Some p
  | _ => None
  end.

Definition instruments_of (syms : list Symbol) : gset Z :=
  list_to_set (omap instrument_of syms).

(** A note message of channel [c] as the decoding loop builds it. *)
Definition decoded_note (c : Z) (msg : Message) : Prop :=
  match msg with
  | NoteOn c' _ v _ => c' = c ∧ 0 ≤ v ≤ 127 ∧ v `mod` BIN_STEP = 0
  | NoteOff c' _ v _ => c' = c ∧ v = 0
  | _ => False
  end.

(** A track of channel [c] as the decoding loop builds it. *)
Definition instrument_track (c : Z) (track : MidiTrack) : Prop :=
  ∃ p notes, track = ProgramChange c p 0 :: notes
             ∧ Forall (decoded_note c) notes.

(** What the decoding loop keeps true of [mid.tracks] and
    [instrument_tracks], whose keys are [keys]. *)
Record tracks_inv (fname : string) (tempo : Z) (st : decoder)
    (keys : gset Z) : Prop := {
  ti_head : d_tracks st !! 0%nat
            = Some [MetaTrackName fname 0; MetaSetTempo tempo 0];
  ti_keys : dom (d_instrument_tracks st) = keys;
  ti_length : length (d_tracks st) = S (size (d_instrument_tracks st));
  ti_track : ∀ k pos, d_instrument_tracks st !! k = Some pos →
               pos ≠ 0%nat
               ∧ ∃ track, d_tracks st !! pos = Some track
                          ∧ instrument_track (k `mod` 16) track;
  ti_all : ∀ pos track, d_tracks st !! S pos = Some track →
             ∃ k, d_instrument_tracks st !! k = Some (S pos);
  ti_velocity : 0 ≤ d_current_velocity st ≤ 127
                ∧ d_current_velocity st `mod` BIN_STEP = 0
}.

(** What the decoding loop keeps true once it has read the tokens
    [seen]. *)
Definition loop_inv (fname : string) (tempo : Z) (st : decoder)
    (seen : list Symbol) : Prop :=
  tracks_inv fname tempo st (instruments_of seen)
  ∧ file_time (d_tracks st)
    = DIV * (sumZ (shift_of <$> seen) - pending_units seen)
  ∧ d_delta_time st = DIV * pending_units seen.

(** The program that a token gives to the track it creates. *)
Definition token_program (s : Symbol) : Z :=
  match s with SET_INSTRUMENT p => p | _ => 0 end.

(** The program of the first token that names instrument [k]. *)
Fixpoint program_of (k : Z) (syms : list Symbol) : Z :=
  match syms with
  | [] => 0
  | s :: syms' =>
      if decide (instrument_of s = Some k) then token_program s
      else program_of k syms'
  end.

(** What the decoding loop keeps true of the first message of each track,
    once it has read the tokens [seen]; no two instruments share a
    track. *)
Definition programs_inv (st : decoder) (seen : list Symbol) : Prop :=
  (∀ k pos, d_instrument_tracks st !! k = Some pos →
     ∃ notes, d_tracks st !! pos
              = Some (ProgramChange (k `mod` 16) (program_of k seen) 0
                        :: notes))
  ∧ (∀ k1 k2 pos, d_instrument_tracks st !! k1 = Some pos →
                  d_instrument_tracks st !! k2 = Some pos → k1 = k2).

(** * Properties *)

(** ** Quantizer *)

Section quantizer.

Lemma Qfloor_div_pos (a : Z) (p : positive) :
  Qfloor (Qdiv (inject_Z a) (inject_Z (Z.pos p))) = a `div` Z.pos p.
Proof.
  unfold Qdiv, Qinv, Qmult, inject_Z, Qfloor; simpl.
  by rewrite Z.mul_1_r.
Qed.

(** On a quotient of integers [round_] is rounding half up. *)
Lemma round_truediv (a b : Z) :
  0 < b → round_ (Qdiv (inject_Z a) (inject_Z b)) = (2 * a + b) `div` (2 * b).
Proof.
  intros Hb. destruct b as [|p|p]; try lia.
  unfold round_. rewrite Qfloor_div_pos.
  set (f := a `div` Z.pos p).
  assert (Hf : Z.pos p * f ≤ a < Z.pos p * f + Z.pos p).
  { subst f. pose proof (Z.mul_div_le a (Z.pos p)).
    pose proof (Z.mul_succ_div_gt a (Z.pos p)). lia. }
  destruct (Qle_bool _ _) eqn:E.
  - apply Qle_bool_iff in E.
    unfold Qle, Qminus, Qplus, Qopp, Qdiv, Qinv, Qmult, inject_Z in E.
    simpl in E. apply Z.div_unique with (r := 2 * a + Z.pos p - 2 * Z.pos p * (f + 1)); lia.
  - assert (E' : ¬ Qle (1 # 2) (Qminus (Qdiv (inject_Z a) (inject_Z (Z.pos p))) (inject_Z f))).
    { intros H. apply Qle_bool_iff in H. congruence. }
    unfold Qle, Qminus, Qplus, Qopp, Qdiv, Qinv, Qmult, inject_Z in E'.
    simpl in E'. apply Z.div_unique with (r := 2 * a + Z.pos p - 2 * Z.pos p * f); lia.
Qed.

Lemma time_cutter_eq (time : Z) :
  time_cutter time =
    Ok (replicate (Z.to_nat (time `div` LTH)) 125
          ++ (if decide (leftover time > 0) then [leftover time] else [])).
Proof.
  unfold time_cutter, time_cutter_with, Py.mod_, Py.floordiv, Py.truediv.
  change DIV with 8. simpl.
  rewrite !round_truediv by lia.
  change ((2 * LTH + 8) `div` (2 * 8)) with 125.
  replace ((2 * (time `mod` LTH) + 8) `div` (2 * 8)) with (leftover time).
  2:{ unfold leftover.
      rewrite <- (Z.div_mul_cancel_l (time `mod` LTH + 4) 8 2) by lia.
      f_equal; lia. }
  assert (Hr : (λ _ : Z, 125) <$> Py.range (time `div` LTH)
               = replicate (Z.to_nat (time `div` LTH)) 125).
  { unfold Py.range, seqZ. rewrite <- list_fmap_compose.
    generalize 0%nat. induction (Z.to_nat (time `div` LTH)) as [|n IH]; intros k;
      simpl; [done|]. by rewrite IH. }
  rewrite Hr. destruct (decide (leftover time > 0)); by rewrite ?app_nil_r.
Qed.

Lemma leftover_bounds (time : Z) : 0 ≤ leftover time ≤ 125.
Proof.
  unfold leftover. pose proof (Z.mod_pos_bound time LTH eq_refl).
  change LTH with 1000 in *. split.
  - apply Z.div_pos; lia.
  - enough ((time `mod` 1000 + 4) `div` 8 < 126) by lia.
    apply Z.div_lt_upper_bound; lia.
Qed.

Lemma leftover_error (time : Z) :
  -3 ≤ 8 * leftover time - time `mod` LTH ≤ 4.
Proof.
  unfold leftover. set (r := time `mod` LTH).
  pose proof (Z.mul_div_le (r + 4) 8).
  pose proof (Z.mul_succ_div_gt (r + 4) 8). lia.
Qed.

Lemma sumZ_app (l k : list Z) : sumZ (l ++ k) = sumZ l + sumZ k.
Proof. unfold sumZ. induction l; simpl; lia. Qed.

Lemma sumZ_replicate (n : nat) (x : Z) : sumZ (replicate n x) = Z.of_nat n * x.
Proof. unfold sumZ. induction n; simpl; lia. Qed.

Lemma time_cutter_units (time : Z) (units : list Z) :
  time_cutter time = Ok units → Forall (λ u, 1 ≤ u ≤ time_shift_events) units.
Proof.
  rewrite time_cutter_eq. intros [= <-].
  pose proof (leftover_bounds time).
  apply Forall_app; split.
  - apply Forall_replicate. unfold time_shift_events; lia.
  - destruct (decide _); constructor; [unfold time_shift_events; lia|constructor].
Qed.

(** The units of a gap, scaled by [DIV], miss the gap by the rounding of
    the remainder only. *)
Lemma time_cutter_sum (time : Z) (units : list Z) :
  0 ≤ time → time_cutter time = Ok units →
  -3 ≤ DIV * sumZ units - time ≤ 4.
Proof.
  intros Ht. rewrite time_cutter_eq. intros [= <-].
  rewrite sumZ_app, sumZ_replicate, Z2Nat.id by (apply Z.div_pos; unfold LTH; lia).
  pose proof (leftover_error time) as He.
  pose proof (Z.div_mod time LTH) as Hd.
  pose proof (Z.mod_pos_bound time LTH eq_refl) as Hm.
  change DIV with 8. change LTH with 1000 in *.
  destruct (decide (leftover time > 0)) as [Hl|Hl]; unfold sumZ; simpl.
  - lia.
  - pose proof (leftover_bounds time). lia.
Qed.

End quantizer.

(** ** Strings: [str], [int] and [split] *)

Section strings.

Lemma chars_app (a b : string) : chars (a +:+ b) = chars a ++ chars b.
Proof. induction a as [|c a IH]; simpl; [done|]. by rewrite IH. Qed.

Lemma digit_of_pretty_N_char (x : N) :
  (x < 10)%N → Py.digit_of (pretty_N_char x) = Some (Z.of_N x).
Proof.
  intros Hx.
  assert (x = 0 ∨ x = 1 ∨ x = 2 ∨ x = 3 ∨ x = 4 ∨ x = 5
          ∨ x = 6 ∨ x = 7 ∨ x = 8 ∨ x = 9)%N as H by lia.
  repeat (destruct H as [->|H]; [reflexivity|]). by subst.
Qed.

Lemma pretty_N_go_digits (x : N) (s : string) :
  Forall is_digit (chars s) → Forall is_digit (chars (pretty_N_go x s)).
Proof.
  revert s. induction (N.lt_wf_0 x) as [x _ IH]; intros s Hs.
  destruct (decide (x = 0)%N) as [->|Hx]; [by rewrite pretty_N_go_0|].
  rewrite pretty_N_go_step by lia. apply IH.
  - apply N.div_lt; lia.
  - simpl. constructor; [|done]. unfold is_digit.
    rewrite digit_of_pretty_N_char; [done|]. by apply N.mod_lt.
Qed.

Lemma pretty_N_go_nonempty (x : N) (s : string) :
  (0 < x)%N → pretty_N_go x s ≠ "".
Proof.
  revert s. induction (N.lt_wf_0 x) as [x _ IH]; intros s Hx.
  rewrite pretty_N_go_step by done.
  destruct (decide (x `div` 10 = 0)%N) as [->|Hd].
  - by rewrite pretty_N_go_0.
  - apply IH; [apply N.div_lt; lia|].
    destruct (x `div` 10)%N; [done|lia].
Qed.

(** Reading back the digits that [str] wrote. *)
Lemma int_digits_pretty_N_go (x : N) :
  ∃ k : Z, 0 ≤ k ∧ ∀ (s : string) (acc : Z),
    Py.int_digits acc (pretty_N_go x s)
    = Py.int_digits (acc * 10 ^ k + Z.of_N x) s.
Proof.
  induction (N.lt_wf_0 x) as [x _ IH].
  destruct (decide (x = 0)%N) as [->|Hx].
  - exists 0. split; [done|]. intros s acc. rewrite pretty_N_go_0.
    f_equal. simpl. lia.
  - destruct (IH (x `div` 10)%N) as (k & Hk & IHk).
    { apply N.div_lt; lia. }
    exists (k + 1). split; [lia|]. intros s acc.
    rewrite pretty_N_go_step, IHk by lia. simpl.
    rewrite digit_of_pretty_N_char by (by apply N.mod_lt).
    f_equal. rewrite Z.pow_add_r, Z.pow_1_r by lia.
    pose proof (N.div_mod x 10) as Hdm.
    rewrite N2Z.inj_div, N2Z.inj_mod.
    pose proof (Z.div_mod (Z.of_N x) 10). change (Z.of_N 10) with 10.
    lia.
Qed.

Lemma int_all_digits (s : string) :
  s ≠ "" → Forall is_digit (chars s) → Py.int s = Py.int_digits 0 s.
Proof.
  destruct s as [|c s]; [done|]. intros _ Hs.
  apply Forall_cons in Hs as [[d Hc] _].
  unfold Py.int.
  destruct (decide (c = "-"%char)) as [->|?]; [done|].
  destruct (decide (c = "+"%char)) as [->|?]; [done|].
  destruct c as [[] [] [] [] [] [] [] []]; try done; by destruct s.
Qed.

Lemma str_pos_digits (p : positive) :
  Forall is_digit (chars (pretty_N_go (N.pos p) ""))
  ∧ pretty_N_go (N.pos p) "" ≠ ""
  ∧ Py.int_digits 0 (pretty_N_go (N.pos p) "") = Ok (Z.pos p).
Proof.
  split; [|split].
  - apply pretty_N_go_digits. constructor.
  - apply pretty_N_go_nonempty. lia.
  - destruct (int_digits_pretty_N_go (N.pos p)) as (k & _ & ->). done.
Qed.

(** [int(str(n)) == n] *)
Lemma int_str (n : Z) : Py.int (Py.str n) = Ok n.
Proof.
  destruct n as [|p|p]; [done|..];
    destruct (str_pos_digits p) as (Hd & Hne & Hi).
  - change (Py.str (Z.pos p)) with (pretty_N_go (N.pos p) "").
    by rewrite int_all_digits.
  - change (Py.str (Z.neg p)) with ("-" +:+ pretty_N_go (N.pos p) "").
    revert Hne Hi. generalize (pretty_N_go (N.pos p) "").
    intros [|c s] Hne Hi; [done|].
    change (Py.int ("-" +:+ String c s))
      with (Py.int_digits 0 (String c s) ≫= λ n, Ok (- n)).
    by rewrite Hi.
Qed.

Lemma str_no_underscore (n : Z) : no_underscore (Py.str n).
Proof.
  assert (Hd : ∀ s, Forall is_digit (chars s) → no_underscore s).
  { intros s Hs Hin. rewrite Forall_forall in Hs.
    by destruct (Hs _ Hin) as [d Hd]. }
  destruct n as [|p|p].
  - apply Hd. repeat constructor. by exists 0.
  - apply Hd, str_pos_digits.
  - change (Py.str (Z.neg p)) with ("-" +:+ pretty_N_go (N.pos p) "").
    unfold no_underscore. simpl. rewrite elem_of_cons. intros [?|Hin]; [done|].
    by apply (Hd _ (proj1 (str_pos_digits p))).
Qed.

Lemma prefix_app (p t : string) : String.prefix p (p +:+ t) = true.
Proof.
  induction p as [|c p IH]; [by destruct t|].
  change (String c p +:+ t) with (String c (p +:+ t)). simpl.
  by destruct (ascii_dec c c).
Qed.

Lemma split_no_sep (s : string) :
  no_underscore s → Py.split "_" s = [s].
Proof.
  unfold no_underscore. induction s as [|c s IH]; simpl; [done|].
  rewrite elem_of_cons. intros Hc.
  destruct (decide (c = "_"%char)) as [->|?]; [naive_solver|].
  rewrite IH by naive_solver. done.
Qed.

Lemma split_app (a b : string) :
  no_underscore a →
  Py.split "_" (a +:+ "_" +:+ b) = a :: Py.split "_" b.
Proof.
  unfold no_underscore. induction a as [|c a IH]; simpl; [done|].
  rewrite elem_of_cons. intros Hc.
  destruct (decide (c = "_"%char)) as [->|?]; [naive_solver|].
  simpl in IH. rewrite IH by naive_solver. done.
Qed.

End strings.

(** ** Vocabulary *)

Section vocabulary.

Lemma check_from_lookup f i l :
  check_from f i l = true →
  ∀ (k : nat) s, l !! k = Some s → f (i + Z.of_nat k) s = true.
Proof.
  revert i. induction l as [|x l IH]; intros i; simpl; [done|].
  rewrite andb_true_iff. intros [Hx Hl] [|k] s; cbn [lookup list_lookup].
  - intros [= <-]. by rewrite Z.add_0_r.
  - intros Hk.
    replace (i + Z.of_nat (S k)) with (i + 1 + Z.of_nat k) by lia.
    by apply IH.
Qed.

Lemma vocab_length : length vocab = 4384%nat.
Proof. vm_compute. reflexivity. Qed.

Lemma vocab_size_eq : vocab_size = 4384.
Proof. unfold vocab_size. by rewrite vocab_length. Qed.

Lemma note_on_vocab_length : length note_on_vocab = 2048%nat.
Proof. vm_compute. reflexivity. Qed.

Lemma note_off_vocab_length : length note_off_vocab = 2048%nat.
Proof. vm_compute. reflexivity. Qed.

(** Every entry of [vocab] is the symbol that the offsets give. *)
Lemma vocab_table :
  check_from (λ i s, String.eqb (render (symbol_of_index i)) s) 0 vocab = true.
Proof. vm_compute. reflexivity. Qed.

Lemma vocab_lookup (i : Z) :
  0 ≤ i < 4384 → vocab !! Z.to_nat i = Some (render (symbol_of_index i)).
Proof.
  intros Hi. destruct (vocab !! Z.to_nat i) as [s|] eqn:E.
  - pose proof (check_from_lookup _ _ _ vocab_table _ _ E) as H.
    cbv beta in H. apply String.eqb_eq in H.
    rewrite Z.add_0_l, Z2Nat.id in H by lia. by rewrite H.
  - apply lookup_ge_None in E. rewrite vocab_length in E. lia.
Qed.

Lemma symbol_of_index_constructible (i : Z) :
  0 ≤ i < 4384 →
  constructible (symbol_of_index i)
  ∧ index_of_symbol (symbol_of_index i) = i.
Proof.
  intros Hi. unfold symbol_of_index.
  repeat case_decide; simpl;
    unfold note_on_events, max_instruments, time_shift_events,
      velocity_events, instrument_events;
    try (pose proof (Z.div_mod (i - 1) 128);
         pose proof (Z.mod_pos_bound (i - 1) 128);
         assert (0 ≤ (i - 1) `div` 128 < 16)
           by (split; [apply Z.div_pos|apply Z.div_lt_upper_bound]; lia));
    try (pose proof (Z.div_mod (i - 2049) 128);
         pose proof (Z.mod_pos_bound (i - 2049) 128);
         assert (0 ≤ (i - 2049) `div` 128 < 16)
           by (split; [apply Z.div_pos|apply Z.div_lt_upper_bound]; lia));
    lia.
Qed.

Lemma index_of_symbol_constructible (s : Symbol) :
  constructible s →
  0 ≤ index_of_symbol s < 4384 ∧ symbol_of_index (index_of_symbol s) = s.
Proof.
  destruct s; simpl;
    unfold note_on_events, max_instruments, time_shift_events,
      velocity_events, instrument_events, symbol_of_index; intros H;
    (split; [lia|]); repeat case_decide; try lia; try done; f_equal;
    try lia.
  - replace (1 + instrument * 128 + note - 1) with (note + instrument * 128) by lia.
    rewrite Z.mod_add by lia. apply Z.mod_small; lia.
  - replace (1 + instrument * 128 + note - 1) with (note + instrument * 128) by lia.
    rewrite Z.div_add by lia. rewrite Z.div_small; lia.
  - replace (2049 + instrument * 128 + note - 2049) with (note + instrument * 128) by lia.
    rewrite Z.mod_add by lia. apply Z.mod_small; lia.
  - replace (2049 + instrument * 128 + note - 2049) with (note + instrument * 128) by lia.
    rewrite Z.div_add by lia. rewrite Z.div_small; lia.
Qed.

End vocabulary.

Section reading.

Lemma no_underscore_literal (s : string) :
  bool_decide ("_"%char ∉ chars s) = true → no_underscore s.
Proof. apply bool_decide_eq_true_1. Qed.

Lemma split_note_on (n i : Z) :
  Py.split "_" (render (NOTE_ON n i)) = ["note"; "on"; Py.str n; Py.str i].
Proof.
  change (render (NOTE_ON n i))
    with ("note" +:+ "_" +:+ ("on" +:+ "_" +:+ (Py.str n +:+ "_" +:+ Py.str i))).
  rewrite !split_app, split_no_sep;
    auto using str_no_underscore, no_underscore_literal.
Qed.

Lemma split_note_off (n i : Z) :
  Py.split "_" (render (NOTE_OFF n i)) = ["note"; "off"; Py.str n; Py.str i].
Proof.
  change (render (NOTE_OFF n i))
    with ("note" +:+ "_" +:+ ("off" +:+ "_" +:+ (Py.str n +:+ "_" +:+ Py.str i))).
  rewrite !split_app, split_no_sep;
    auto using str_no_underscore, no_underscore_literal.
Qed.

Lemma last_part_time_shift (u : Z) :
  last_part (render (TIME_SHIFT u)) = Ok (Py.str u).
Proof.
  unfold last_part.
  change (render (TIME_SHIFT u))
    with ("time" +:+ "_" +:+ ("shift" +:+ "_" +:+ Py.str u)).
  rewrite !split_app, split_no_sep;
    auto using str_no_underscore, no_underscore_literal.
Qed.

Lemma last_part_set_velocity (b : Z) :
  last_part (render (SET_VELOCITY b)) = Ok (Py.str b).
Proof.
  unfold last_part.
  change (render (SET_VELOCITY b))
    with ("set" +:+ "_" +:+ ("velocity" +:+ "_" +:+ Py.str b)).
  rewrite !split_app, split_no_sep;
    auto using str_no_underscore, no_underscore_literal.
Qed.

Lemma last_part_set_instrument (p : Z) :
  last_part (render (SET_INSTRUMENT p)) = Ok (Py.str p).
Proof.
  unfold last_part.
  change (render (SET_INSTRUMENT p))
    with ("set" +:+ "_" +:+ ("instrument" +:+ "_" +:+ Py.str p)).
  rewrite !split_app, split_no_sep;
    auto using str_no_underscore, no_underscore_literal.
Qed.

Lemma read_int_str (n : Z) : read_int (Ok (Py.str n)) = Some n.
Proof. unfold read_int. cbn [mbind result_bind]. by rewrite int_str. Qed.

Lemma getitem_parts (a b c d : string) :
  Py.getitem [a; b; c; d] 0 = Ok a ∧ Py.getitem [a; b; c; d] 1 = Ok b
  ∧ Py.getitem [a; b; c; d] 2 = Ok c ∧ Py.getitem [a; b; c; d] 3 = Ok d.
Proof. done. Qed.

(** Reading a written symbol gives the symbol back. *)
Lemma read_render (s : Symbol) : read_symbol (render s) = Some s.
Proof.
  destruct s; try reflexivity; unfold read_symbol.
  - rewrite split_note_on.
    destruct (getitem_parts "note" "on" (Py.str note) (Py.str instrument))
      as (_ & _ & -> & ->).
    rewrite !read_int_str. unfold render. rewrite (prefix_app "note_on_").
    by generalize (Py.str note +:+ "_" +:+ Py.str instrument).
  - rewrite split_note_off.
    destruct (getitem_parts "note" "off" (Py.str note) (Py.str instrument))
      as (_ & _ & -> & ->).
    rewrite !read_int_str. unfold render. rewrite (prefix_app "note_off_").
    by generalize (Py.str note +:+ "_" +:+ Py.str instrument).
  - rewrite last_part_time_shift, !read_int_str. unfold render.
    rewrite (prefix_app "time_shift_"). by generalize (Py.str unit).
  - rewrite last_part_set_velocity, !read_int_str. unfold render.
    rewrite (prefix_app "set_velocity_"). by generalize (Py.str bin).
  - rewrite last_part_set_instrument, !read_int_str. unfold render.
    rewrite (prefix_app "set_instrument_"). by generalize (Py.str program).
Qed.

Lemma render_inj (s t : Symbol) : render s = render t → s = t.
Proof.
  intros H. apply (f_equal read_symbol) in H.
  rewrite !read_render in H. congruence.
Qed.

End reading.

Section vocabulary_index.

Lemma vocab_NoDup : NoDup vocab.
Proof.
  apply NoDup_alt. intros i j s Hi Hj.
  pose proof (lookup_lt_Some _ _ _ Hi) as Hli.
  pose proof (lookup_lt_Some _ _ _ Hj) as Hlj.
  rewrite vocab_length in Hli, Hlj.
  rewrite <- (Nat2Z.id i), vocab_lookup in Hi by lia.
  rewrite <- (Nat2Z.id j), vocab_lookup in Hj by lia.
  assert (symbol_of_index (Z.of_nat i) = symbol_of_index (Z.of_nat j)) as E
    by (apply render_inj; congruence).
  apply (f_equal index_of_symbol) in E.
  rewrite !(λ k H, proj2 (symbol_of_index_constructible k H)) in E by lia.
  lia.
Qed.

(** [vocab.index] finds an entry where it stands. *)
Lemma index_lookup (i : nat) (s : string) :
  vocab !! i = Some s → Py.index vocab s = Ok (Z.of_nat i).
Proof.
  intros Hi. unfold Py.index.
  destruct (list_find (λ y, y = s) vocab) as [[j t]|] eqn:E.
  - apply list_find_Some in E as (Hj & -> & _).
    by rewrite (NoDup_lookup _ _ _ _ vocab_NoDup Hi Hj).
  - apply list_find_None in E. rewrite Forall_forall in E.
    destruct (E s); [|done]. by eapply list_elem_of_lookup_2.
Qed.

Lemma index_render (s : Symbol) :
  constructible s → Py.index vocab (render s) = Ok (index_of_symbol s).
Proof.
  intros Hs. destruct (index_of_symbol_constructible s Hs) as [Hi Hr].
  rewrite <- (Z2Nat.id (index_of_symbol s)) at 1 by lia.
  apply index_lookup. by rewrite vocab_lookup, Hr.
Qed.

Lemma elem_of_vocab (s : string) :
  s ∈ vocab ↔ ∃ sym, constructible sym ∧ s = render sym.
Proof.
  split.
  - intros (i & Hi)%list_elem_of_lookup_1.
    pose proof (lookup_lt_Some _ _ _ Hi) as Hli. rewrite vocab_length in Hli.
    rewrite <- (Nat2Z.id i), vocab_lookup in Hi by lia.
    exists (symbol_of_index (Z.of_nat i)). split; [|congruence].
    apply symbol_of_index_constructible. lia.
  - intros (sym & Hs & ->).
    destruct (index_of_symbol_constructible sym Hs) as [Hi Hr].
    apply list_elem_of_lookup_2 with (Z.to_nat (index_of_symbol sym)).
    by rewrite vocab_lookup, Hr.
Qed.

(** [vocab.index] raises for a symbol outside the layout. *)
Lemma index_render_out (s : Symbol) :
  ¬ constructible s → Py.index vocab (render s) = Err ValueError.
Proof.
  intros Hs. unfold Py.index.
  destruct (list_find _ vocab) as [[j t]|] eqn:E; [|done].
  apply list_find_Some in E as (Hj & -> & _).
  apply list_elem_of_lookup_2, elem_of_vocab in Hj as (sym & Hsym & E).
  apply render_inj in E as ->. done.
Qed.

Lemma getitem_nonneg {A} (l : list A) (i : Z) (x : A) :
  0 ≤ i → l !! Z.to_nat i = Some x → Py.getitem l i = Ok x.
Proof.
  intros Hi Hx. pose proof (lookup_lt_Some _ _ _ Hx).
  unfold Py.getitem. destruct (decide (i < 0)); [lia|].
  rewrite decide_True by lia. by rewrite Hx.
Qed.

Lemma getitem_neg {A} (l : list A) (i : Z) (x : A) :
  i < 0 → 0 ≤ i + Z.of_nat (length l) →
  l !! Z.to_nat (i + Z.of_nat (length l)) = Some x → Py.getitem l i = Ok x.
Proof.
  intros Hi Hj Hx. unfold Py.getitem. destruct (decide (i < 0)); [|lia].
  rewrite decide_True by lia. by rewrite Hx.
Qed.

Lemma getitem_out {A} (l : list A) (i : Z) :
  i < - Z.of_nat (length l) ∨ Z.of_nat (length l) ≤ i →
  Py.getitem l i = Err IndexError.
Proof.
  intros Hi. unfold Py.getitem.
  destruct (decide (i < 0)); by rewrite decide_False by lia.
Qed.

Lemma getitem_vocab (i : Z) :
  0 ≤ i < vocab_size →
  Py.getitem vocab i = Ok (render (symbol_of_index i)).
Proof.
  rewrite vocab_size_eq. intros Hi.
  apply getitem_nonneg; [lia|]. by apply vocab_lookup.
Qed.

(** A negative subscript counts from the end of [vocab]. *)
Lemma getitem_vocab_neg (i : Z) :
  - vocab_size ≤ i < 0 →
  Py.getitem vocab i = Ok (render (symbol_of_index (i + vocab_size))).
Proof.
  unfold vocab_size. pose proof vocab_length as Hl. intros Hi.
  apply getitem_neg; [lia..|]. apply vocab_lookup. lia.
Qed.

Lemma getitem_vocab_out (i : Z) :
  i < - vocab_size ∨ vocab_size ≤ i → Py.getitem vocab i = Err IndexError.
Proof. apply getitem_out. Qed.

(** [get_note_event_indices] computes the index that [vocab.index] finds
    for the string of the note. *)
Lemma get_note_event_indices_index (n i : Z) (is_on : bool) (idx : Z) :
  get_note_event_indices n i is_on = Ok idx →
  Py.index vocab (render (if is_on then NOTE_ON n i else NOTE_OFF n i))
  = Ok idx.
Proof.
  unfold get_note_event_indices. rewrite note_on_vocab_length.
  case_bool_decide; [|done]. case_bool_decide; [|done]. simpl.
  unfold max_instruments, note_on_events in *. intros [= <-].
  destruct is_on; rewrite index_render; simpl;
    unfold max_instruments, note_on_events; (done || lia || (f_equal; lia)).
Qed.

Lemma special_tokens :
  pad_token = 0 ∧ start_token = 4382 ∧ end_token = 4383.
Proof.
  by vm_compute.
Qed.

End vocabulary_index.



(** ** Quantizer: the claims *)

Lemma time_cutter_nonempty (d : Z) (units : list Z) :
  4 ≤ d → time_cutter d = Ok units → units ≠ [].
Proof.
  intros Hd. rewrite time_cutter_eq. intros [= <-].
  destruct (decide (LTH ≤ d)) as [Hl|Hl].
  - assert (1 ≤ d `div` LTH) by (apply Z.div_le_lower_bound; unfold LTH in *; lia).
    destruct (Z.to_nat (d `div` LTH)) eqn:E; [lia|done].
  - assert (leftover d > 0);
      [|rewrite decide_True by done; by intros [_ ?]%app_nil].
    unfold leftover. rewrite Z.mod_small by lia.
    enough (1 ≤ (d + 4) `div` 8) by lia. apply Z.div_le_lower_bound; lia.
Qed.

(** C7, as stated, fails: a gap of 3 gives no unit at all, so the error 3 is
    not within [DIV/2] times the number of units. *)
Lemma time_cutter_per_unit_error_fails :
  ∃ units, time_cutter 3 = Ok units ∧ ¬ within_per_unit_error 3 units.
Proof. exists []. split; [by vm_compute|]. by vm_compute. Qed.

(** C7, amended. For every gap [d >= 0], the units of [time_cutter d] times
    [DIV] sum to [d] up to [DIV/2] in all (only the remainder is rounded);
    whenever a unit is returned, which is so for [d >= 4], this is within
    [DIV/2] per unit. *)
Theorem time_cutter_error (d : Z) :
  0 ≤ d →
  ∃ units, time_cutter d = Ok units
    ∧ Z.abs (DIV * sumZ units - d) ≤ DIV `div` 2
    ∧ (4 ≤ d → units ≠ [])
    ∧ (units ≠ [] → within_per_unit_error d units).
Proof.
  intros Hd. destruct (time_cutter d) as [units|] eqn:E;
    [|by rewrite time_cutter_eq in E].
  exists units. pose proof (time_cutter_sum d units Hd E) as Hs.
  change (DIV `div` 2) with 4 in *. unfold within_per_unit_error.
  split; [done|]. split; [lia|]. split; [by intros; eapply time_cutter_nonempty|].
  intros Hne. change (DIV `div` 2) with 4.
  destruct units; [done|]. simpl length. lia.
Qed.

Lemma time_cutter_error_witness :
  ∃ units, time_cutter 500 = Ok units
    ∧ Z.abs (DIV * sumZ units - 500) ≤ DIV `div` 2
    ∧ (4 ≤ 500 → units ≠ [])
    ∧ (units ≠ [] → within_per_unit_error 500 units).
Proof. apply (time_cutter_error 500). lia. Defined.

(** C8. For every velocity [v] in [[0,127]], [velocity_to_bin] and then
    [bin_to_velocity] both return, and the result differs from [v] by less
    than the step [BIN_STEP = 128 // velocity_events]. *)
Theorem velocity_bin_roundtrip (v : Z) :
  0 ≤ v ≤ 127 →
  ∃ b v', velocity_to_bin v = Ok b ∧ bin_to_velocity b = Ok v'
          ∧ Z.abs (v' - v) < BIN_STEP.
Proof.
  intros Hv. exists (v `div` 4), (v `div` 4 * 4).
  pose proof (Z.div_mod v 4). pose proof (Z.mod_pos_bound v 4).
  unfold velocity_to_bin, velocity_to_bin_step, bin_to_velocity,
    bin_to_velocity_step. change BIN_STEP with 4.
  cbn [Py.mod_ Py.floordiv mbind result_bind].
  rewrite !bool_decide_eq_true_2 by lia. simpl. split; [done|]. split; [done|lia].
Qed.

Lemma velocity_bin_roundtrip_witness :
  ∃ b v', velocity_to_bin 100 = Ok b ∧ bin_to_velocity b = Ok v'
          ∧ Z.abs (v' - 100) < BIN_STEP.
Proof. apply (velocity_bin_roundtrip 100). lia. Defined.

(** ** time_to_events *)

Lemma time_shift_vocab_length : length time_shift_vocab = 125%nat.
Proof. vm_compute. reflexivity. Qed.

Lemma base_idx_eq : base_idx = 4096.
Proof. unfold base_idx. by rewrite note_on_vocab_length, note_off_vocab_length. Qed.

Lemma getitem_time_shift (u : Z) :
  1 ≤ u ≤ time_shift_events →
  Py.getitem vocab (base_idx + u) = Ok (render (TIME_SHIFT (u - 1))).
Proof.
  unfold time_shift_events. intros Hu. rewrite base_idx_eq.
  rewrite getitem_vocab by (rewrite vocab_size_eq; lia).
  unfold symbol_of_index. repeat case_decide; try lia. do 3 f_equal. lia.
Qed.

Lemma time_to_events_units (delta_time : Z) (units : list Z)
    (event_list : list string) (index_list : list Z) :
  time_cutter delta_time = Ok units →
  time_to_events delta_time event_list index_list
  = Ok (event_list ++ ((λ u, render (TIME_SHIFT (u - 1))) <$> units),
        index_list ++ ((λ u, base_idx + u) <$> units)).
Proof.
  intros E. pose proof (time_cutter_units _ _ E) as Hu.
  unfold time_to_events. rewrite E. cbn [mbind result_bind]. fold base_idx.
  clear E. revert event_list index_list.
  induction Hu as [|u units Hu _ IH]; intros event_list index_list.
  - by rewrite !app_nil_r.
  - cbn [foldM mbind result_bind fmap list_fmap].
    rewrite getitem_time_shift by done. cbn [mbind result_bind].
    rewrite IH. by rewrite <- !app_assoc.
Qed.

(** C10. For every gap [delta_time >= 0], [time_to_events] returns, and each
    index it appends is [len(note_on_vocab) + len(note_off_vocab) + u] for a
    unit [u] of [time_cutter] with [1 <= u <= time_shift_events]; the index
    lies in [[0, vocab_size)], inside the block of [time_shift_vocab], so the
    look-up in [vocab] returns, and the token there is [time_shift_{u-1}]. *)
Theorem time_to_events_in_block (delta_time : Z)
    (event_list : list string) (index_list : list Z) :
  0 ≤ delta_time →
  ∃ units,
    time_cutter delta_time = Ok units
    ∧ time_to_events delta_time event_list index_list
      = Ok (event_list ++ ((λ u, "time_shift_" +:+ Py.str (u - 1)) <$> units),
            index_list ++ ((λ u, base_idx + u) <$> units))
    ∧ Forall (λ u,
        1 ≤ u ≤ time_shift_events
        ∧ 0 ≤ base_idx + u < vocab_size
        ∧ 1 + base_idx ≤ base_idx + u
          < 1 + base_idx + Z.of_nat (length time_shift_vocab)
        ∧ Py.getitem vocab (base_idx + u)
          = Ok ("time_shift_" +:+ Py.str (u - 1))
        ∧ time_shift_vocab !! Z.to_nat (u - 1)
          = Some ("time_shift_" +:+ Py.str (u - 1))) units.
Proof.
  intros Hd. destruct (time_cutter delta_time) as [units|] eqn:E;
    [|by rewrite time_cutter_eq in E].
  exists units. split; [done|]. split; [by apply time_to_events_units|].
  eapply Forall_impl; [by eapply time_cutter_units|].
  intros u Hu. cbv beta in Hu. split; [done|].
  rewrite time_shift_vocab_length, vocab_size_eq, base_idx_eq.
  unfold time_shift_events in Hu. split; [lia|]. split; [lia|].
  split; [rewrite <- base_idx_eq; by apply getitem_time_shift|].
  pose proof (vocab_lookup (4096 + u) ltac:(lia)) as Hl.
  unfold vocab in Hl.
  rewrite lookup_app_r in Hl by (simpl; lia).
  rewrite lookup_app_r in Hl by (rewrite note_on_vocab_length; simpl; lia).
  rewrite lookup_app_r in Hl
    by (rewrite note_on_vocab_length, note_off_vocab_length; simpl; lia).
  rewrite lookup_app_l in Hl
    by (rewrite note_on_vocab_length, note_off_vocab_length,
          time_shift_vocab_length; simpl; lia).
  rewrite note_on_vocab_length, note_off_vocab_length in Hl.
  replace (Z.to_nat (4096 + u) - length ["<pad>"] - 2048 - 2048)%nat
    with (Z.to_nat (u - 1)) in Hl by (simpl; lia).
  rewrite Hl. unfold symbol_of_index. repeat case_decide; try lia.
  simpl. do 3 f_equal. lia.
Qed.

Lemma time_to_events_in_block_witness :
  time_to_events 1999 [] [] = Ok (["time_shift_124"; "time_shift_124"], [4221; 4221]).
Proof.
  destruct (time_to_events_in_block 1999 [] [] ltac:(lia))
    as (units & Hu & -> & _).
  vm_compute in Hu. by injection Hu as <-.
Defined.

(** ** Loops that may raise *)

Section loops.
Context {A S : Type} (f : S → A → result S).


(** An invariant of the loop body holds after the loop. *)
Lemma foldM_invariant (I : S → Prop) (s s' : S) (l : list A) :
  (∀ s x s', x ∈ l → I s → f s x = Ok s' → I s') →
  I s → foldM f s l = Ok s' → I s'.
Proof.
  revert s. induction l as [|x l IH]; intros s Hf Hs; simpl.
  - by intros [= <-].
  - destruct (f s x) as [s1|] eqn:E; simpl; [|done].
    apply IH.
    + intros s2 y s3 Hy Hs2 Hf2. apply (Hf s2 y s3); [by right|done..].
    + apply (Hf s x s1); [by left|done..].
Qed.

(** If every step either goes on or raises [e], and some step raises [e]
    whatever the state, the loop raises [e]. *)
Lemma foldM_raises (e : PyError) (s : S) (l : list A) (x : A) :
  x ∈ l →
  (∀ s, f s x = Err e) →
  (∀ s y, y ∈ l → is_Ok (f s y) ∨ f s y = Err e) →
  foldM f s l = Err e.
Proof.
  intros Hx Hbad Hall. revert s.
  induction l as [|y l IH]; intros s; [by apply elem_of_nil in Hx|].
  simpl. destruct (Hall s y) as [[s' E]|E]; [by left|..]; rewrite E; [|done].
  simpl. apply elem_of_cons in Hx as [<-|Hx].
  - by rewrite Hbad in E.
  - apply IH; [done|]. intros s2 z Hz. apply Hall. by right.
Qed.
End loops.

Lemma mapM_result_Forall2 {A B} (f : A → result B) (l : list A) (k : list B) :
  Forall2 (λ x y, f x = Ok y) l k → mapM_result f l = Ok k.
Proof. induction 1 as [|x y l k E _ IH]; simpl; [done|]. by rewrite E, IH. Qed.

(** ** The sort of the first pass *)

Section sorting.

Lemma insert_by_time_Permutation x l : insert_by_time x l ≡ₚ x :: l.
Proof.
  induction l as [|y l IH]; simpl; [done|].
  case_decide; [done|]. rewrite IH. apply Permutation_swap.
Qed.

Lemma sort_by_time_Permutation l : sort_by_time l ≡ₚ l.
Proof.
  induction l as [|x l IH]; simpl; [done|].
  by rewrite insert_by_time_Permutation, IH.
Qed.

Lemma insert_by_time_Sorted x l :
  Sorted by_time l → Sorted by_time (insert_by_time x l).
Proof.
  induction 1 as [|y l Hl IH Hy]; simpl.
  - repeat constructor.
  - case_decide as Hxy.
    + repeat constructor; done.
    + constructor; [done|].
      destruct Hy as [|z l Hyz]; simpl.
      * constructor. unfold by_time. lia.
      * case_decide; constructor; unfold by_time in *; lia.
Qed.

Lemma sort_by_time_Sorted l : Sorted by_time (sort_by_time l).
Proof.
  induction l; simpl; [constructor|]. by apply insert_by_time_Sorted.
Qed.

(** Stability: events with the same time keep their order. *)
Lemma insert_by_time_filter (t : Z) x l :
  filter (λ e, MidiEvent.time e = t) (insert_by_time x l)
  = filter (λ e, MidiEvent.time e = t) (x :: l).
Proof.
  induction l as [|y l IH]; simpl; [done|].
  case_decide as Hxy; [done|].
  rewrite (filter_cons _ y), IH, !(filter_cons _ x), !(filter_cons _ y).
  repeat case_decide; try done; lia.
Qed.

Lemma sort_by_time_stable (t : Z) l :
  filter (λ e, MidiEvent.time e = t) (sort_by_time l)
  = filter (λ e, MidiEvent.time e = t) l.
Proof.
  induction l as [|x l IH]; simpl; [done|].
  by rewrite insert_by_time_filter, !filter_cons, IH.
Qed.

Lemma sort_by_time_sorted_id l : Sorted by_time l → sort_by_time l = l.
Proof.
  induction 1 as [|x l Hl IH Hx]; simpl; [done|].
  rewrite IH. destruct Hx; simpl; [done|]. by rewrite decide_True.
Qed.

Lemma elem_of_sort_by_time e l : e ∈ sort_by_time l ↔ e ∈ l.
Proof. by rewrite sort_by_time_Permutation. Qed.

End sorting.

(** ** Structure of the encoded sequence *)

Section structure.

Lemma preceded_by_snoc {A} (is_a is_b : A → Prop) (l : list A) (x : A) :
  preceded_by is_a is_b l →
  (is_a x → ∃ y, last l = Some y ∧ is_b y) →
  preceded_by is_a is_b (l ++ [x]).
Proof.
  intros Hl Hx k z Hk Hz.
  destruct (decide (k < length l)%nat) as [Hlt|Hge].
  - rewrite lookup_app_l in Hk by done.
    destruct (Hl k z Hk Hz) as (k' & y & -> & Hy & Hb).
    exists k', y. split; [done|]. split; [|done].
    rewrite lookup_app_l; [done|lia].
  - rewrite lookup_app_r in Hk by lia.
    destruct (k - length l)%nat as [|?] eqn:E; [|done].
    injection Hk as <-. destruct (Hx Hz) as (y & Hy & Hb).
    rewrite last_lookup in Hy.
    pose proof (lookup_lt_Some _ _ _ Hy) as Hlt.
    exists (pred (length l)), y. split; [lia|]. split; [|done].
    by rewrite lookup_app_l by lia.
Qed.

Lemma preceded_by_snoc_other {A} (is_a is_b : A → Prop) (l : list A) x :
  preceded_by is_a is_b l → ¬ is_a x → preceded_by is_a is_b (l ++ [x]).
Proof. intros Hl Hx. apply preceded_by_snoc; [done|]. by intros ?. Qed.

Lemma preceded_by_app_none {A} (is_a is_b : A → Prop) (l k : list A) :
  preceded_by is_a is_b l → Forall (λ x, ¬ is_a x) k →
  preceded_by is_a is_b (l ++ k).
Proof.
  intros Hl Hk. revert l Hl. induction Hk as [|x k Hx _ IH]; intros l Hl.
  - by rewrite app_nil_r.
  - replace (l ++ x :: k) with ((l ++ [x]) ++ k) by (by rewrite <- app_assoc).
    by apply IH, preceded_by_snoc_other.
Qed.

Lemma preceded_by_Forall2 {A B} (R : A → B → Prop)
    (is_a is_b : A → Prop) (is_a' is_b' : B → Prop) l l' :
  (∀ x y, R x y → is_a' y → is_a x) →
  (∀ x y, R x y → is_b x → is_b' y) →
  Forall2 R l l' → preceded_by is_a is_b l → preceded_by is_a' is_b' l'.
Proof.
  intros Ha Hb HR Hl k y Hk Hy.
  destruct (Forall2_lookup_r _ _ _ _ _ HR Hk) as (x & Hx & Hxy).
  destruct (Hl k x Hx (Ha _ _ Hxy Hy)) as (k' & x' & -> & Hx' & Hbx).
  destruct (Forall2_lookup_l _ _ _ _ _ HR Hx') as (y' & Hy' & Hxy').
  exists k', y'. eauto.
Qed.

Lemma is_NOTE_ON_render (s : Symbol) :
  is_NOTE_ON (render s) ↔ ∃ n i, s = NOTE_ON n i.
Proof.
  unfold is_NOTE_ON. destruct s; simpl render;
    try (split; [by intros [=]|by intros (?&?&[=])]).
  rewrite (prefix_app "note_on_"). split; eauto.
Qed.

Lemma is_SET_VELOCITY_render (s : Symbol) :
  is_SET_VELOCITY (render s) ↔ ∃ b, s = SET_VELOCITY b.
Proof.
  unfold is_SET_VELOCITY. destruct s; simpl render;
    try (split; [by intros [=]|by intros (?&[=])]).
  rewrite (prefix_app "set_velocity_"). split; eauto.
Qed.

Lemma denotes_render (i : Z) (ev : string) :
  denotes i ev → ev = render (symbol_of_index i).
Proof. intros [Hi Hev]. rewrite getitem_vocab in Hev by done. congruence. Qed.

Lemma velocity_vocab_length : length velocity_vocab = 32%nat.
Proof. vm_compute. reflexivity. Qed.

Lemma denotes_note_on (i : Z) (ev : string) :
  denotes i ev → note_on_index i → is_NOTE_ON ev.
Proof.
  intros Hd. rewrite (denotes_render _ _ Hd). destruct Hd as [Hi _].
  unfold note_on_index. rewrite note_on_vocab_length. intros Hn.
  apply is_NOTE_ON_render. unfold symbol_of_index.
  repeat case_decide; try lia; eauto.
Qed.

Lemma denotes_set_velocity (i : Z) (ev : string) :
  denotes i ev → is_SET_VELOCITY ev → set_velocity_index i.
Proof.
  intros Hd. rewrite (denotes_render _ _ Hd). destruct Hd as [Hi _].
  rewrite vocab_size_eq in Hi.
  unfold set_velocity_index.
  rewrite note_on_vocab_length, note_off_vocab_length,
    time_shift_vocab_length, velocity_vocab_length.
  intros (b & Hb)%is_SET_VELOCITY_render. revert Hb.
  unfold symbol_of_index. repeat case_decide; intros Hb; try discriminate Hb.
  lia.
Qed.

Lemma index_denotes (ev : string) (idx : Z) :
  Py.index vocab ev = Ok idx → denotes idx ev.
Proof.
  unfold Py.index.
  destruct (list_find _ vocab) as [[j t]|] eqn:E; [|done].
  intros [= <-]. apply list_find_Some in E as (Hj & -> & _).
  pose proof (lookup_lt_Some _ _ _ Hj) as Hlt.
  split; [unfold vocab_size; lia|].
  apply getitem_nonneg; [lia|]. by rewrite Nat2Z.id.
Qed.

End structure.

Section encoder_structure.

Lemma head_snoc {A} (l : list A) (x y : A) :
  head l = Some x → head (l ++ [y]) = Some x.
Proof. by destruct l. Qed.

Lemma head_app {A} (l k : list A) (x : A) :
  head l = Some x → head (l ++ k) = Some x.
Proof. by destruct l. Qed.

Lemma emit_inv (ev : string) (st st' : encoder) :
  encoder_inv st → emit ev st = Ok st' →
  (is_NOTE_ON ev → ∃ y, last (e_event_list st) = Some y ∧ is_SET_VELOCITY y) →
  encoder_inv st' ∧ last (e_event_list st') = Some ev.
Proof.
  intros (HF & HP & Hh & Hi) Hemit Hev. unfold emit in Hemit.
  destruct (Py.index vocab ev) as [idx|] eqn:E; [|done].
  injection Hemit as <-. simpl.
  split; [|by rewrite last_snoc].
  split; [|split; [|split]]; simpl.
  - apply Forall2_app; [done|].
    constructor; [by apply index_denotes|constructor].
  - by apply preceded_by_snoc.
  - by apply head_snoc.
  - by apply head_snoc.
Qed.

Lemma time_to_events_inv (d t : Z) (st : encoder) el il :
  encoder_inv st →
  time_to_events d (e_event_list st) (e_index_list st) = Ok (el, il) →
  encoder_inv (mkEncoder el il t).
Proof.
  intros (HF & HP & Hh & Hi).
  destruct (time_cutter d) as [units|] eqn:E;
    [|by rewrite time_cutter_eq in E].
  rewrite (time_to_events_units _ _ _ _ E). intros [= <- <-].
  pose proof (time_cutter_units _ _ E) as Hu.
  split; [|split; [|split]]; simpl.
  - apply Forall2_app; [done|]. apply Forall2_fmap, Forall_Forall2_diag.
    eapply Forall_impl; [done|]. intros u Hu'. cbv beta in Hu'.
    split; [|by apply getitem_time_shift].
    rewrite base_idx_eq, vocab_size_eq. unfold time_shift_events in Hu'. lia.
  - apply preceded_by_app_none; [done|]. apply Forall_fmap, Forall_true.
    intros u H.
    by apply (is_NOTE_ON_render (TIME_SHIFT (u - 1))) in H as (?&?&[=]).
  - by apply head_app.
  - by apply head_app.
Qed.

Lemma encode_event_inv (st st' : encoder) (event : MidiEvent.t) :
  encoder_inv st → encode_event st event = Ok st' → encoder_inv st'.
Proof.
  intros Hst. unfold encode_event.
  assert (∀ st1, advance_time st event = Ok st1 → encoder_inv st1) as Hst0.
  { unfold advance_time. intros st1. case_decide; [|by intros [= <-]].
    cbv zeta. destruct (time_to_events _ _ _) as [[el il]|] eqn:E; [|done].
    intros [= <-]. by eapply time_to_events_inv. }
  destruct (advance_time st event) as [st1|]; [|done].
  specialize (Hst0 _ eq_refl). cbn [mbind result_bind].
  destruct (MidiEvent.type event); simpl type_str.
  - destruct (velocity_to_bin_opt _) as [vel_bin|]; [|done].
    cbn [mbind result_bind].
    destruct (emit _ st1) as [st2|] eqn:E2; [|done].
    cbn [mbind result_bind]. intros E3.
    apply emit_inv in E2 as [Hst2 Hlast]; [|done|].
    2:{ change ("set_velocity_" +:+ Py.str vel_bin)
          with (render (SET_VELOCITY vel_bin)).
        rewrite is_NOTE_ON_render. by intros (?&?&[=]). }
    apply emit_inv in E3 as [Hst3 _]; [done..|].
    intros _. eexists. split; [done|]. apply (prefix_app "set_velocity_").
  - intros E. apply emit_inv in E as [? _]; [done..|].
    intros H. exfalso. revert H. unfold is_NOTE_ON.
    by generalize (Py.str_opt (MidiEvent.note event) +:+ "_"
                     +:+ Py.str (MidiEvent.instrument event)).
  - intros E. apply emit_inv in E as [? _]; [done..|].
    intros H. exfalso. revert H. unfold is_NOTE_ON.
    by generalize (Py.str_opt (MidiEvent.program event)).
Qed.

Lemma encode_events_inv (events : list MidiEvent.t) (st : encoder) :
  foldM encode_event (mkEncoder ["<start>"] [start_token] 0) events = Ok st →
  encoder_inv st.
Proof.
  intros E.
  eapply (foldM_invariant encode_event encoder_inv); [| |exact E].
  - intros ???? ?. by apply encode_event_inv.
  - split; [|split; [|done]]; simpl.
    + repeat constructor. by vm_compute.
    + intros [|k] x; [|done]. intros [= <-]. by intros [=].
Qed.

End encoder_structure.

(** C5. A sequence that [midi_parser] returns starts with the START token
    and ends with the END token, and every NOTE_ON token in it comes
    immediately after a SET_VELOCITY token; this holds of the event list
    and of the index list, whose entries denote the same tokens. *)
Theorem midi_parser_well_formed (mid : MidiFile)
    (index_list : list Z) (event_list : list string) (tempo : Z) :
  midi_parser mid = Ok (index_list, event_list, tempo) →
  Forall2 denotes index_list event_list
  ∧ (head event_list = Some "<start>" ∧ last event_list = Some "<end>"
     ∧ preceded_by is_NOTE_ON is_SET_VELOCITY event_list)
  ∧ (head index_list = Some start_token ∧ last index_list = Some end_token
     ∧ preceded_by note_on_index set_velocity_index index_list).
Proof.
  unfold midi_parser, encode_events.
  destruct (foldM _ _ _) as [st|] eqn:E; [|done].
  cbn [mbind result_bind]. intros [= <- <- <-].
  pose proof (encode_events_inv _ _ E) as (HF & HP & Hh & Hi).
  assert (Forall2 denotes (e_index_list st ++ [end_token])
            (e_event_list st ++ ["<end>"])) as HF'.
  { apply Forall2_app; [done|]. repeat constructor. by vm_compute. }
  assert (preceded_by is_NOTE_ON is_SET_VELOCITY (e_event_list st ++ ["<end>"]))
    as HP' by (apply preceded_by_snoc_other; [done|by intros [=]]).
  split; [done|]. split; [|split; [|split]].
  - split; [by apply head_snoc|]. split; [by rewrite last_snoc|done].
  - by apply head_snoc.
  - apply last_snoc.
  - eapply (preceded_by_Forall2 (flip denotes)); [| |by apply Forall2_flip|done].
    + intros ev i Hd. by apply denotes_note_on.
    + intros ev i Hd. by apply denotes_set_velocity.
Qed.

Lemma midi_parser_well_formed_witness :
  Forall2 denotes [4382; 4247; 61; 4159; 2109; 4383]
    ["<start>"; "set_velocity_25"; "note_on_60_0"; "time_shift_62";
     "note_off_60_0"; "<end>"]
  ∧ preceded_by note_on_index set_velocity_index
      [4382; 4247; 61; 4159; 2109; 4383].
Proof.
  destruct (midi_parser_well_formed scenario
              [4382; 4247; 61; 4159; 2109; 4383]
              ["<start>"; "set_velocity_25"; "note_on_60_0"; "time_shift_62";
               "note_off_60_0"; "<end>"] 0) as (H1 & _ & _ & _ & H2).
  - by vm_compute.
  - done.
Defined.

(** ** Symbols outside the vocabulary *)

Section unknown_symbols.

Lemma collect_concat (mid : MidiFile) :
  collect mid = foldl collect_msg collect_init (concat mid).
Proof.
  unfold collect. generalize collect_init.
  induction mid as [|track mid IH]; intros st; simpl; [done|].
  by rewrite foldl_app, IH.
Qed.

Lemma collect_msg_events (st : collector) (msg : Message) :
  ∃ new, c_absolute_events (collect_msg st msg) = c_absolute_events st ++ new
         ∧ Forall wf_event new.
Proof.
  destruct msg; unfold collect_msg; simpl; repeat case_decide; simpl;
    first [ by exists []; rewrite app_nil_r
          | eexists [_]; split; [done|];
            repeat constructor; unfold wf_event; simpl; eauto ].
Qed.

Lemma collect_msgs_events (st : collector) (msgs : list Message) :
  ∃ new, c_absolute_events (foldl collect_msg st msgs)
         = c_absolute_events st ++ new
         ∧ Forall wf_event new.
Proof.
  revert st. induction msgs as [|msg msgs IH]; intros st; simpl.
  - exists []. by rewrite app_nil_r.
  - destruct (IH (collect_msg st msg)) as (new2 & -> & H2).
    destruct (collect_msg_events st msg) as (new1 & -> & H1).
    exists (new1 ++ new2). rewrite app_assoc. split; [done|].
    by apply Forall_app.
Qed.

Lemma collect_wf (mid : MidiFile) :
  Forall wf_event (c_absolute_events (collect mid)).
Proof.
  rewrite collect_concat.
  by destruct (collect_msgs_events collect_init (concat mid)) as (? & -> & ?).
Qed.

Lemma emit_cases (ev : string) (st : encoder) :
  is_Ok (emit ev st) ∨ emit ev st = Err ValueError.
Proof.
  unfold emit, Py.index. destruct (list_find _ vocab) as [[??]|]; simpl.
  - left. by eexists.
  - by right.
Qed.

Lemma emit_unknown (ev : string) (st : encoder) :
  ev ∉ vocab → emit ev st = Err ValueError.
Proof.
  intros Hev. unfold emit, Py.index.
  destruct (list_find _ vocab) as [[i s]|] eqn:E; [|done].
  apply list_find_Some in E as (Hi & -> & _).
  destruct Hev. by eapply list_elem_of_lookup_2.
Qed.

Lemma velocity_to_bin_cases (v : Z) :
  is_Ok (velocity_to_bin v) ∨ velocity_to_bin v = Err ValueError.
Proof.
  unfold velocity_to_bin, velocity_to_bin_step. change BIN_STEP with 4.
  simpl. destruct (bool_decide _); simpl; [left; by eexists|by right].
Qed.

Lemma advance_time_Ok (st : encoder) (event : MidiEvent.t) :
  is_Ok (advance_time st event).
Proof.
  unfold advance_time. case_decide; [|by eexists]. cbv zeta.
  destruct (time_cutter (MidiEvent.time event - e_last_time st))
    as [units|] eqn:E; [|by rewrite time_cutter_eq in E].
  rewrite (time_to_events_units _ _ _ _ E). by eexists.
Qed.

(** The second pass raises nothing but [ValueError]. *)
Lemma encode_event_cases (st : encoder) (event : MidiEvent.t) :
  wf_event event →
  is_Ok (encode_event st event) ∨ encode_event st event = Err ValueError.
Proof.
  intros Hwf. unfold encode_event.
  destruct (advance_time_Ok st event) as [st1 ->]. cbn [mbind result_bind].
  unfold wf_event in Hwf. destruct (MidiEvent.type event).
  - destruct Hwf as [_ [v ->]]. cbn [velocity_to_bin_opt].
    destruct (velocity_to_bin_cases v) as [[b ->]| ->]; [|by right].
    cbn [mbind result_bind].
    destruct (emit_cases ("set_velocity_" +:+ Py.str b) st1) as [[st2 ->]| ->];
      [|by right].
    cbn [mbind result_bind]. apply emit_cases.
  - apply emit_cases.
  - apply emit_cases.
Qed.

Lemma encode_event_unknown (st : encoder) (event : MidiEvent.t) (s : string) :
  wf_event event → s ∈ derived_strings event → s ∉ vocab →
  encode_event st event = Err ValueError.
Proof.
  intros Hwf Hs Hout. unfold encode_event.
  destruct (advance_time_Ok st event) as [st1 ->]. cbn [mbind result_bind].
  unfold wf_event in Hwf. unfold derived_strings, note_str in Hs.
  destruct (MidiEvent.type event).
  - destruct Hwf as [_ [v Hv]]. rewrite Hv in *. cbn [velocity_to_bin_opt] in *.
    destruct (velocity_to_bin_cases v) as [[b Hb]|Hb]; rewrite Hb in *; [|done].
    cbn [mbind result_bind].
    apply elem_of_cons in Hs as [->|Hs]; [by rewrite emit_unknown|].
    apply list_elem_of_singleton in Hs as ->.
    destruct (emit_cases ("set_velocity_" +:+ Py.str b) st1) as [[st2 ->]| ->];
      [|done].
    cbn [mbind result_bind]. by apply emit_unknown.
  - apply list_elem_of_singleton in Hs as ->. by apply emit_unknown.
  - apply list_elem_of_singleton in Hs as ->. by apply emit_unknown.
Qed.

Lemma midi_parser_unknown (mid : MidiFile) (e : MidiEvent.t) (s : string) :
  e ∈ c_absolute_events (collect mid) →
  s ∈ derived_strings e → s ∉ vocab →
  midi_parser mid = Err ValueError.
Proof.
  intros He Hs Hout. unfold midi_parser, encode_events.
  pose proof (collect_wf mid) as Hwf. rewrite Forall_forall in Hwf.
  assert (∀ st l, e ∈ l → (∀ y, y ∈ l → wf_event y) →
            foldM encode_event st l = Err ValueError) as Hfold.
  { intros st l Hel Hl. apply (foldM_raises encode_event ValueError st l e).
    - done.
    - intros st'. apply (encode_event_unknown st' e s); auto.
    - intros st' y Hy. apply encode_event_cases; auto. }
  rewrite Hfold; [done|by apply elem_of_sort_by_time|].
  intros y Hy. apply Hwf. by apply (proj1 (elem_of_sort_by_time _ _)).
Qed.

Lemma note_str_unknown (ty : EventType) (n v inst t : Z) :
  ty ≠ set_instrument → ¬ (0 ≤ inst < max_instruments) →
  note_str (MidiEvent.mk ty (Some n) (Some v) inst t None) ∉ vocab.
Proof.
  intros Hty Hinst (sym & Hc & E)%elem_of_vocab.
  destruct ty; [| |done].
  - apply (render_inj (NOTE_ON n inst)) in E as <-. by destruct Hc.
  - apply (render_inj (NOTE_OFF n inst)) in E as <-. by destruct Hc.
Qed.

End unknown_symbols.

(** C9. [midi_parser] raises the error of a vocabulary look-up miss
    ([ValueError] from [vocab.index]) whenever a token string derived from
    one of its events is not in [vocab]; in particular whenever the input
    has a note message on a channel whose program, as assigned when the
    message is read, is 16 or greater. *)
Theorem midi_parser_unknown_symbol (mid : MidiFile) :
  (∀ e s, e ∈ c_absolute_events (collect mid) →
          s ∈ derived_strings e → s ∉ vocab →
          midi_parser mid = Err ValueError)
  ∧ (∀ pre msg post c p,
       concat mid = pre ++ msg :: post →
       note_channel msg = Some c →
       c_channel_programs (foldl collect_msg collect_init pre) !! c = Some p →
       16 ≤ p →
       midi_parser mid = Err ValueError).
Proof.
  split; [apply midi_parser_unknown|].
  intros pre msg post c p Hmid Hc Hp Hge.
  set (st := foldl collect_msg collect_init pre) in *.
  assert (∃ ty n v t, ty ≠ set_instrument
            ∧ MidiEvent.mk ty (Some n) (Some v) p t None
              ∈ c_absolute_events (collect mid)) as (ty & n & v & t & Hty & He).
  { rewrite collect_concat, Hmid, foldl_app. simpl. fold st.
    destruct (collect_msgs_events (collect_msg st msg) post) as (new & -> & _).
    destruct msg; try done; injection Hc as ->; simpl; rewrite Hp; simpl.
    - eexists _, _, _, _. split; [|apply elem_of_app; left; apply elem_of_app;
        right; apply list_elem_of_singleton; reflexivity].
      by case_decide.
    - eexists _, _, _, _. split; [|apply elem_of_app; left; apply elem_of_app;
        right; apply list_elem_of_singleton; reflexivity].
      done. }
  eapply midi_parser_unknown; [exact He| |].
  - unfold derived_strings. simpl.
    destruct ty; [|apply list_elem_of_singleton; reflexivity|done].
    destruct (velocity_to_bin v); [right|]; apply list_elem_of_singleton;
      reflexivity.
  - apply note_str_unknown; [done|]. unfold max_instruments. lia.
Qed.

Lemma midi_parser_unknown_symbol_witness :
  midi_parser [[ProgramChange 0 16 0; NoteOn 0 60 100 0; NoteOff 0 60 0 500]]
  = Err ValueError.
Proof.
  apply (proj2 (midi_parser_unknown_symbol _)
           [ProgramChange 0 16 0] (NoteOn 0 60 100 0) [NoteOff 0 60 0 500] 0 16).
  - reflexivity.
  - reflexivity.
  - reflexivity.
  - lia.
Defined.

(** ** The first pass and track boundaries *)

(** C3. The first pass does not restart the running time at a track
    boundary: a file is read as the single track made of all its tracks one
    after the other. In [two_tracks] the note of the second track, at delta
    0 in its own track, is stamped 500, the time at which the first track
    ends, and it is encoded after the note-off of the first track. *)
Theorem collect_time_runs_across_tracks :
  (∀ mid, collect mid = collect [concat mid])
  ∧ c_absolute_events (collect two_tracks)
    = [MidiEvent.mk note_on (Some 60) (Some 100) 0 0 None;
       MidiEvent.mk note_off (Some 60) (Some 0) 0 500 None;
       MidiEvent.mk note_on (Some 64) (Some 100) 0 500 None]
  ∧ midi_parser two_tracks
    = Ok ([4382; 4247; 61; 4159; 2109; 4247; 65; 4383],
          ["<start>"; "set_velocity_25"; "note_on_60_0"; "time_shift_62";
           "note_off_60_0"; "set_velocity_25"; "note_on_64_0"; "<end>"], 0).
Proof.
  split; [|split].
  - intros mid. rewrite !collect_concat. simpl. by rewrite app_nil_r.
  - reflexivity.
  - by vm_compute.
Qed.

(** Every message advances the running time by its delta, and an event is
    stamped with the running time. *)
Lemma collect_msg_time (st : collector) (msg : Message) :
  c_current_time (collect_msg st msg) = c_current_time st + msg_time msg
  ∧ (c_absolute_events (collect_msg st msg) = c_absolute_events st
     ∨ ∃ e, c_absolute_events (collect_msg st msg)
            = c_absolute_events st ++ [e]
            ∧ MidiEvent.time e = c_current_time st + msg_time msg).
Proof.
  destruct msg; unfold collect_msg; simpl; repeat case_decide; simpl;
    (split; [done|]); eauto.
Qed.

Lemma Sorted_by_time_snoc (l : list MidiEvent.t) (e : MidiEvent.t) :
  Sorted by_time l →
  Forall (λ e', MidiEvent.time e' ≤ MidiEvent.time e) l →
  Sorted by_time (l ++ [e]).
Proof.
  induction 1 as [|x l Hl IH Hx]; intros Hle; simpl.
  - repeat constructor.
  - apply Forall_cons in Hle as [Hxe Hle]. constructor; [by apply IH|].
    destruct Hx; simpl; by constructor.
Qed.

(** With deltas that are not negative the events of the first pass are
    already in time order, whatever the tracks: the sort changes nothing. *)
Lemma collect_msgs_Sorted (st : collector) (msgs : list Message) :
  Forall (λ msg, 0 ≤ msg_time msg) msgs →
  Sorted by_time (c_absolute_events st) →
  Forall (λ e, MidiEvent.time e ≤ c_current_time st) (c_absolute_events st) →
  Sorted by_time (c_absolute_events (foldl collect_msg st msgs)).
Proof.
  intros Hmsgs. revert st.
  induction Hmsgs as [|msg msgs Hmsg _ IH]; intros st Hs Hle; simpl; [done|].
  destruct (collect_msg_time st msg) as [Ht [He|(e & He & Hte)]].
  - apply IH; rewrite ?He, ?Ht; [done|].
    eapply Forall_impl; [done|]. intros e' He'. cbv beta in He'. lia.
  - assert (Forall (λ e', MidiEvent.time e' ≤ MidiEvent.time e)
              (c_absolute_events st)) as Hle'.
    { eapply Forall_impl; [done|]. intros e' He'. cbv beta in He'. lia. }
    apply IH; rewrite ?He, ?Ht.
    + by apply Sorted_by_time_snoc.
    + apply Forall_app. split; [by rewrite <- Hte|].
      repeat constructor. lia.
Qed.

Lemma collect_already_sorted (mid : MidiFile) :
  Forall (λ msg, 0 ≤ msg_time msg) (concat mid) →
  sort_by_time (c_absolute_events (collect mid))
  = c_absolute_events (collect mid).
Proof.
  intros Hmid. apply sort_by_time_sorted_id. rewrite collect_concat.
  apply collect_msgs_Sorted; [done|constructor..].
Qed.

(** ** The scenario of one note *)

(** C2. For the single note of [scenario], [time_cutter] counts
    [round(500/8) = 63] units, but [time_to_events] looks the token up at
    [len(note_on_vocab) + len(note_off_vocab) + 63 = 4159], which is the
    entry [time_shift_62], not [time_shift_63] at 4160; [list_parser] reads
    62 back and puts the note-off at relative time [62 * DIV = 496], not
    at [63 * DIV = 504]. *)
Theorem scenario_encode_decode :
  time_cutter 500 = Ok [63]
  ∧ midi_parser scenario
    = Ok ([4382; 4247; 61; 4159; 2109; 4383],
          ["<start>"; "set_velocity_25"; "note_on_60_0"; "time_shift_62";
           "note_off_60_0"; "<end>"], 0)
  ∧ Py.index vocab "time_shift_63" = Ok 4160
  ∧ list_parser_indices [4382; 4247; 61; 4159; 2109; 4383]
    = Ok [[MetaTrackName "output" 0; MetaSetTempo 512820 0];
          [ProgramChange 0 0 0; NoteOn 0 60 100 0; NoteOff 0 60 0 496]]
  ∧ 63 * DIV = 504.
Proof. repeat split; by vm_compute. Qed.

(** ** list_parser on the tokens of the vocabulary *)

Section decoding.

Lemma int_last_part (event : string) (n : Z) :
  last_part event = Ok (Py.str n) → last_part event ≫= Py.int = Ok n.
Proof. intros ->. cbn [mbind result_bind]. apply int_str. Qed.

Lemma list_parser_step_render (st : decoder) (s : Symbol) :
  list_parser_step st (render s) = decode_symbol st s.
Proof.
  destruct s; try reflexivity; unfold list_parser_step.
  - rewrite split_note_on.
    destruct (getitem_parts "note" "on" (Py.str note) (Py.str instrument))
      as (-> & -> & -> & ->).
    cbn [mbind result_bind]. rewrite !int_str. cbn [mbind result_bind].
    unfold render. rewrite (prefix_app "note_on_").
    by generalize (Py.str note +:+ "_" +:+ Py.str instrument).
  - rewrite split_note_off.
    destruct (getitem_parts "note" "off" (Py.str note) (Py.str instrument))
      as (-> & -> & -> & ->).
    cbn [mbind result_bind]. rewrite !int_str. cbn [mbind result_bind].
    unfold render. rewrite (prefix_app "note_off_").
    by generalize (Py.str note +:+ "_" +:+ Py.str instrument).
  - rewrite (int_last_part _ unit) by apply last_part_time_shift.
    unfold render. rewrite (prefix_app "time_shift_").
    by generalize (Py.str unit).
  - rewrite (int_last_part _ bin) by apply last_part_set_velocity.
    unfold render. rewrite (prefix_app "set_velocity_").
    by generalize (Py.str bin).
  - rewrite (int_last_part _ program) by apply last_part_set_instrument.
    unfold render. rewrite (prefix_app "set_instrument_").
    by generalize (Py.str program).
Qed.

End decoding.

(** ** Index lists given to list_parser *)

Section index_lists.

Lemma mapM_result_raises {A B} (f : A → result B) (e : PyError)
    (l : list A) :
  Exists (λ x, f x = Err e) l →
  Forall (λ x, is_Ok (f x) ∨ f x = Err e) l →
  mapM_result f l = Err e.
Proof.
  induction l as [|x l IH]; intros Hex Hall; [by apply Exists_nil in Hex|].
  apply Forall_cons in Hall as [Hx Hall]. simpl.
  destruct Hx as [[y Hy]|Hy]; rewrite Hy; [|done]. cbn [mbind result_bind].
  apply Exists_cons in Hex as [Hex|Hex]; [congruence|].
  by rewrite IH.
Qed.

Lemma mapM_as_index (il : list Z) :
  mapM_result as_index (PyInt <$> il) = Ok il.
Proof.
  induction il as [|i il IH]; [done|].
  rewrite fmap_cons. cbn [mapM_result as_index mbind result_bind].
  by rewrite IH.
Qed.

Lemma forallb_isinstance_int (il : list Z) :
  forallb isinstance_int (PyInt <$> il) = true.
Proof. by induction il. Qed.

Lemma initial_decoder_fits (fname : string) (tempo : Z) :
  tempo_fits tempo →
  initial_decoder fname tempo = Ok (meta_decoder fname tempo).
Proof.
  intros Ht. unfold initial_decoder, mido.set_tempo.
  by rewrite bool_decide_eq_true_2.
Qed.

Lemma initial_decoder_raises (fname : string) (tempo : Z) :
  ¬ tempo_fits tempo → initial_decoder fname tempo = Err ValueError.
Proof.
  intros Ht. unfold initial_decoder, mido.set_tempo.
  by rewrite bool_decide_eq_false_2.
Qed.

Lemma decode_events_fits (event_list : list string) (fname : string)
    (tempo : Z) :
  tempo_fits tempo →
  decode_events event_list fname tempo
  = foldM list_parser_step (meta_decoder fname tempo) event_list.
Proof. intros Ht. unfold decode_events. by rewrite initial_decoder_fits. Qed.

Lemma decode_events_raises (event_list : list string) (fname : string)
    (tempo : Z) :
  ¬ tempo_fits tempo → decode_events event_list fname tempo = Err ValueError.
Proof. intros Ht. unfold decode_events. by rewrite initial_decoder_raises. Qed.

Lemma decode_events_Ok (event_list : list string) (fname : string)
    (tempo : Z) (st : decoder) :
  decode_events event_list fname tempo = Ok st →
  tempo_fits tempo
  ∧ foldM list_parser_step (meta_decoder fname tempo) event_list = Ok st.
Proof.
  destruct (decide (tempo_fits tempo)) as [Ht|Ht].
  - by rewrite decode_events_fits.
  - by rewrite decode_events_raises.
Qed.


Lemma list_parser_ints (il : list Z) (fname : string) (tempo : Z) :
  list_parser (Some (PyInt <$> il)) None fname tempo
  = (event_list ← indices_to_events il;
     st ← decode_events event_list fname tempo;
     Ok (d_tracks st)).
Proof.
  unfold list_parser. simpl.
  by rewrite forallb_isinstance_int, mapM_as_index.
Qed.

Lemma getitem_wrap_index (i : Z) :
  - vocab_size ≤ i < vocab_size →
  Py.getitem vocab i = Ok (render (symbol_of_index (wrap_index i)))
  ∧ 0 ≤ wrap_index i < vocab_size.
Proof.
  intros Hi. unfold wrap_index. case_decide.
  - split; [apply getitem_vocab_neg|]; lia.
  - split; [apply getitem_vocab|]; lia.
Qed.

Lemma indices_to_events_wrap (il : list Z) :
  Forall (λ i, - vocab_size ≤ i < vocab_size) il →
  indices_to_events il = Ok (render ∘ symbol_of_index ∘ wrap_index <$> il).
Proof.
  intros Hil. apply mapM_result_Forall2, Forall2_fmap_r, Forall_Forall2_diag.
  eapply Forall_impl; [done|]. intros i Hi. by apply getitem_wrap_index.
Qed.

Lemma indices_to_events_out (il : list Z) :
  Exists (λ i, i < - vocab_size ∨ vocab_size ≤ i) il →
  indices_to_events il = Err IndexError.
Proof.
  intros Hex. apply mapM_result_raises.
  - eapply Exists_impl; [done|]. intros i Hi. by apply getitem_vocab_out.
  - apply Forall_true. intros i. unfold Py.getitem.
    case_decide; [|by right]. destruct (vocab !! _); [left; by eexists|by right].
Qed.

Lemma ensure_track_Ok (key program_ : Z) (st : decoder) :
  0 ≤ program_ ≤ 127 →
  ∃ st', ensure_track key program_ st = Ok st'
         ∧ is_Some (d_instrument_tracks st' !! key)
         ∧ d_current_velocity st' = d_current_velocity st
         ∧ d_delta_time st' = d_delta_time st.
Proof.
  intros Hp. unfold ensure_track.
  destruct (d_instrument_tracks st !! key) as [pos|] eqn:E.
  - exists st. by rewrite E.
  - unfold mido.program_change, mido.check_data_byte, mido.check_channel.
    pose proof (Z.mod_pos_bound key 16).
    rewrite !bool_decide_eq_true_2 by lia. cbn [mbind result_bind].
    eexists. split; [done|]. simpl. by rewrite lookup_insert_eq.
Qed.

Lemma decode_symbol_Ok (st : decoder) (s : Symbol) :
  constructible s → 0 ≤ d_current_velocity st ≤ 127 →
  ∃ st', decode_symbol st s = Ok st' ∧ 0 ≤ d_current_velocity st' ≤ 127.
Proof.
  intros Hs Hv.
  destruct s; simpl in *;
    unfold note_on_events, max_instruments, velocity_events,
      instrument_events in *;
    try (eexists; split; [done|]; simpl; lia).
  - destruct (ensure_track_Ok instrument 0 st)
      as (st1 & E1 & [pos Epos] & Hv1 & _); [lia|].
    rewrite E1. cbn [mbind result_bind].
    unfold mido.note_on, mido.check_data_byte, mido.check_channel.
    pose proof (Z.mod_pos_bound instrument 16).
    rewrite !bool_decide_eq_true_2 by lia. cbn [mbind result_bind].
    rewrite Epos. eexists. split; [done|]. simpl. lia.
  - destruct (ensure_track_Ok instrument 0 st)
      as (st1 & E1 & [pos Epos] & Hv1 & _); [lia|].
    rewrite E1. cbn [mbind result_bind].
    unfold mido.note_off, mido.check_data_byte, mido.check_channel.
    pose proof (Z.mod_pos_bound instrument 16).
    rewrite !bool_decide_eq_true_2 by lia. cbn [mbind result_bind].
    rewrite Epos. eexists. split; [done|]. simpl. lia.
  - unfold bin_to_velocity, bin_to_velocity_step. change BIN_STEP with 4.
    rewrite bool_decide_eq_true_2 by lia. simpl.
    eexists. split; [done|]. simpl. lia.
  - destruct (ensure_track_Ok program program
                (mkDecoder (d_tracks st) (d_instrument_tracks st) program
                   (d_current_velocity st) (d_delta_time st)))
      as (st1 & -> & _ & Hv1 & _); [lia|].
    eexists. split; [done|]. simpl in Hv1. lia.
Qed.

(** [list_parser] returns on every sequence of tokens of the vocabulary. *)
Lemma decode_symbols_Ok (st : decoder) (syms : list Symbol) :
  Forall constructible syms → 0 ≤ d_current_velocity st ≤ 127 →
  is_Ok (foldM list_parser_step st (render <$> syms)).
Proof.
  intros Hs. revert st. induction Hs as [|s syms Hs _ IH]; intros st Hv.
  - by eexists.
  - simpl. rewrite list_parser_step_render.
    destruct (decode_symbol_Ok st s Hs Hv) as (st1 & -> & Hv1).
    cbn [mbind result_bind]. by apply IH.
Qed.

End index_lists.

(** C6, as stated, fails: [-4323] is not in [[0, vocab_size)], and
    [list_parser] accepts it and decodes it as [vocab[61]], a note-on. *)
Lemma list_parser_negative_index_accepted :
  ¬ (0 ≤ -4323 < vocab_size)
  ∧ list_parser_indices [-4323]
    = Ok [[MetaTrackName "output" 0; MetaSetTempo 512820 0];
          [ProgramChange 0 0 0; NoteOn 0 60 64 0]].
Proof. split; [lia|by vm_compute]. Qed.

(** C6, amended. Given an index list, [list_parser] raises [ValueError] if
    some element is not an integer, and [IndexError] if all are integers
    and one lies outside [[-vocab_size, vocab_size)]. Integers of
    [[-vocab_size, 0)] are accepted, with the result that the call has when
    each such [i] is replaced by [i + vocab_size]: with all elements in
    [[-vocab_size, vocab_size)] the call returns when the tempo is one that
    a set_tempo message takes, and raises [ValueError] when it is not. *)
Theorem list_parser_index_check (fname : string) (tempo : Z) :
  (∀ index_list : list PyObj,
     Exists (λ o, isinstance_int o = false) index_list →
     list_parser (Some index_list) None fname tempo = Err ValueError)
  ∧ (∀ il : list Z,
       Exists (λ i, i < - vocab_size ∨ vocab_size ≤ i) il →
       list_parser (Some (PyInt <$> il)) None fname tempo = Err IndexError)
  ∧ (∀ il : list Z,
       Forall (λ i, - vocab_size ≤ i < vocab_size) il →
       (0 ≤ tempo ≤ 16777215 →
        is_Ok (list_parser (Some (PyInt <$> il)) None fname tempo))
       ∧ (¬ (0 ≤ tempo ≤ 16777215) →
          list_parser (Some (PyInt <$> il)) None fname tempo = Err ValueError)
       ∧ list_parser (Some (PyInt <$> il)) None fname tempo
         = list_parser (Some (PyInt <$> (wrap_index <$> il))) None fname tempo).
Proof.
  split; [|split].
  - intros index_list Hex. unfold list_parser. simpl.
    assert (forallb isinstance_int index_list = false) as ->; [|done].
    induction Hex as [o l Ho|o l _ IH]; simpl.
    + by rewrite Ho.
    + rewrite IH. apply andb_false_r.
  - intros il Hex. by rewrite list_parser_ints, indices_to_events_out.
  - intros il Hil.
    assert (Forall (λ i, - vocab_size ≤ i < vocab_size) (wrap_index <$> il))
      as Hil'.
    { apply Forall_fmap. eapply Forall_impl; [done|]. intros i Hi.
      pose proof (getitem_wrap_index i Hi) as [_ ?].
      simpl. rewrite vocab_size_eq in *. lia. }
    rewrite !list_parser_ints, !indices_to_events_wrap by done.
    assert (render ∘ symbol_of_index ∘ wrap_index <$> (wrap_index <$> il)
            = render ∘ symbol_of_index ∘ wrap_index <$> il) as ->.
    { rewrite <- list_fmap_compose. apply Forall_fmap_ext.
      eapply Forall_impl; [exact Hil|]. intros i Hi. simpl in *.
      do 2 f_equal. unfold wrap_index. rewrite vocab_size_eq in *.
      repeat case_decide; lia. }
    split; [|split; [|done]]; cbn [mbind result_bind].
    + intros Ht. rewrite decode_events_fits by done.
      rewrite (list_fmap_compose (symbol_of_index ∘ wrap_index) render).
      destruct (decode_symbols_Ok (meta_decoder fname tempo)
                  (symbol_of_index ∘ wrap_index <$> il)) as [st Hst].
      * apply Forall_fmap. eapply Forall_impl; [exact Hil|]. intros i Hi.
        simpl. apply symbol_of_index_constructible.
        destruct (getitem_wrap_index i Hi) as [_ ?].
        by rewrite <- vocab_size_eq.
      * simpl. lia.
      * rewrite Hst. by eexists.
    + intros Ht. by rewrite decode_events_raises.
Qed.

Lemma list_parser_index_check_witness :
  list_parser (Some [PyInt 61; PyOther]) None default_fname default_tempo
  = Err ValueError
  ∧ list_parser_indices [61; 4384] = Err IndexError
  ∧ is_Ok (list_parser_indices [-1; 61])
  ∧ list_parser (Some [PyInt (-1); PyInt 61]) None default_fname 16777216
    = Err ValueError.
Proof.
  destruct (list_parser_index_check default_fname default_tempo)
    as (H1 & H2 & H3).
  destruct (list_parser_index_check default_fname 16777216) as (_ & _ & H4).
  split; [|split; [|split]].
  - apply H1. apply Exists_cons_tl, Exists_cons_hd. reflexivity.
  - apply (H2 [61; 4384]). apply Exists_cons_tl, Exists_cons_hd.
    right. by vm_compute.
  - destruct (H3 [-1; 61]) as (Hok & _ & _);
      [repeat constructor; by vm_compute|].
    apply Hok. unfold default_tempo. lia.
  - destruct (H4 [-1; 61]) as (_ & Herr & _);
      [repeat constructor; by vm_compute|].
    apply Herr. lia.
Defined.

(** ** Encoding, then decoding *)

Section encode_side.

Lemma emit_Ok_inv (ev : string) (st st' : encoder) :
  emit ev st = Ok st' →
  e_event_list st' = e_event_list st ++ [ev] ∧ ev ∈ vocab.
Proof.
  unfold emit, Py.index.
  destruct (list_find _ vocab) as [[i s]|] eqn:E; [|done].
  intros [= <-]. split; [done|].
  apply list_find_Some in E as (Hi & -> & _).
  by eapply list_elem_of_lookup_2.
Qed.

Lemma render_in_vocab (s : Symbol) : render s ∈ vocab → constructible s.
Proof. intros (s' & Hs' & ->%render_inj)%elem_of_vocab. done. Qed.

Lemma advance_time_symbols (st st' : encoder) (event : MidiEvent.t) :
  advance_time st event = Ok st' →
  ∃ units, Forall (λ u, 1 ≤ u ≤ time_shift_events) units
    ∧ e_event_list st'
      = e_event_list st ++ (render <$> ((λ u, TIME_SHIFT (u - 1)) <$> units)).
Proof.
  unfold advance_time. case_decide.
  - cbv zeta.
    destruct (time_cutter (MidiEvent.time event - e_last_time st))
      as [units|] eqn:E; [|by rewrite time_cutter_eq in E].
    rewrite (time_to_events_units _ _ _ _ E). intros [= <-].
    exists units. split; [by eapply time_cutter_units|].
    simpl. by rewrite <- list_fmap_compose.
  - intros [= <-]. exists []. split; [constructor|]. by rewrite app_nil_r.
Qed.

Lemma encode_event_symbols (st st' : encoder) (event : MidiEvent.t) :
  wf_event event → encode_event st event = Ok st' →
  ∃ units syms,
    Forall (λ u, 1 ≤ u ≤ time_shift_events) units
    ∧ event_tokens event syms
    ∧ e_event_list st'
      = e_event_list st
        ++ (render <$> (((λ u, TIME_SHIFT (u - 1)) <$> units) ++ syms)).
Proof.
  intros Hwf. unfold encode_event.
  destruct (advance_time st event) as [st1|] eqn:E1; [|done].
  apply advance_time_symbols in E1 as (units & Hu & Hel1).
  cbn [mbind result_bind]. unfold wf_event, event_tokens in *.
  destruct (MidiEvent.type event); simpl type_str.
  - destruct Hwf as [[n Hn] [v Hv]]. rewrite Hn, Hv. simpl Py.str_opt.
    cbn [velocity_to_bin_opt].
    destruct (velocity_to_bin v) as [b|] eqn:Eb; [|done].
    cbn [mbind result_bind].
    destruct (emit _ st1) as [st2|] eqn:E2; [|done].
    cbn [mbind result_bind]. intros E3.
    apply emit_Ok_inv in E2 as [Hel2 Hin2].
    apply emit_Ok_inv in E3 as [Hel3 Hin3].
    apply (render_in_vocab (SET_VELOCITY b)) in Hin2.
    apply (render_in_vocab (NOTE_ON n (MidiEvent.instrument event))) in Hin3.
    exists units, [SET_VELOCITY b; NOTE_ON n (MidiEvent.instrument event)].
    split; [done|]. split; [split; [by repeat apply Forall_cons_2|by eauto 10]|].
    rewrite Hel3, Hel2, Hel1, fmap_app, <- !app_assoc. done.
  - destruct Hwf as [[n Hn] _]. rewrite Hn. simpl Py.str_opt. intros E3.
    apply emit_Ok_inv in E3 as [Hel3 Hin3].
    apply (render_in_vocab (NOTE_OFF n (MidiEvent.instrument event))) in Hin3.
    exists units, [NOTE_OFF n (MidiEvent.instrument event)].
    split; [done|]. split; [split; [by repeat apply Forall_cons_2|by eauto]|].
    rewrite Hel3, Hel1, fmap_app, <- !app_assoc. done.
  - destruct Hwf as [p Hp]. rewrite Hp. simpl Py.str_opt. intros E3.
    apply emit_Ok_inv in E3 as [Hel3 Hin3].
    apply (render_in_vocab (SET_INSTRUMENT p)) in Hin3.
    exists units, [SET_INSTRUMENT p].
    split; [done|]. split; [split; [by repeat apply Forall_cons_2|by eauto]|].
    rewrite Hel3, Hel1, fmap_app, <- !app_assoc. done.
Qed.

End encode_side.

Section decode_side.






Lemma velocity_to_bin_spec (v b : Z) :
  velocity_to_bin v = Ok b ↔ 0 ≤ v ≤ 127 ∧ b = v `div` 4.
Proof.
  unfold velocity_to_bin, velocity_to_bin_step. change BIN_STEP with 4.
  simpl. case_bool_decide; simpl; split; try done; try lia.
  - intros [= <-]. done.
  - intros [_ ->]. done.
Qed.





End decode_side.

Section roundtrip.





End roundtrip.




(** * Further properties of the code *)

(** ** Vocabulary helpers *)

(** X1. For a note in 0..127 and an instrument in 0..15,
    [get_note_event_indices] returns the index at which [vocab] holds the
    string of that note event, which is the index [vocab.index] finds for
    it; for any other note or instrument it raises [ValueError]. *)
Theorem get_note_event_indices_spec (note instrument : Z) (is_on : bool) :
  (0 ≤ note ≤ 127 ∧ 0 ≤ instrument < max_instruments →
   ∃ idx,
     get_note_event_indices note instrument is_on = Ok idx
     ∧ 0 < idx < vocab_size
     ∧ Py.getitem vocab idx
       = Ok ((if is_on then "note_on_" else "note_off_")
               +:+ Py.str note +:+ "_" +:+ Py.str instrument)
     ∧ Py.index vocab ((if is_on then "note_on_" else "note_off_")
                         +:+ Py.str note +:+ "_" +:+ Py.str instrument)
       = Ok idx)
  ∧ (¬ (0 ≤ note ≤ 127 ∧ 0 ≤ instrument < max_instruments) →
     get_note_event_indices note instrument is_on = Err ValueError).
Proof.
  split.
  - intros [Hn Hi].
    destruct (get_note_event_indices note instrument is_on) as [idx|] eqn:E.
    2:{ unfold get_note_event_indices in E.
        rewrite !bool_decide_eq_true_2 in E by done. done. }
    exists idx. split; [done|].
    pose proof (get_note_event_indices_index _ _ _ _ E) as Hidx.
    assert (render (if is_on then NOTE_ON note instrument
                    else NOTE_OFF note instrument)
            = (if is_on then "note_on_" else "note_off_")
                +:+ Py.str note +:+ "_" +:+ Py.str instrument) as Hr
      by (by destruct is_on).
    rewrite Hr in Hidx. destruct (index_denotes _ _ Hidx) as [Hrange Hget].
    split; [|done].
    unfold get_note_event_indices in E.
    rewrite !bool_decide_eq_true_2 in E by done. simpl in E.
    injection E as <-. rewrite vocab_size_eq in *.
    unfold max_instruments, note_on_events in *.
    destruct is_on; simpl; lia.
  - intros Hout. unfold get_note_event_indices.
    case_bool_decide; [|done]. case_bool_decide; [|done]. tauto.
Qed.

Lemma get_note_event_indices_spec_witness :
  (∃ idx,
     get_note_event_indices 60 3 false = Ok idx
     ∧ 0 < idx < vocab_size
     ∧ Py.getitem vocab idx = Ok ("note_off_" +:+ Py.str 60 +:+ "_" +:+ Py.str 3)
     ∧ Py.index vocab ("note_off_" +:+ Py.str 60 +:+ "_" +:+ Py.str 3) = Ok idx)
  ∧ get_note_event_indices 60 16 true = Err ValueError.
Proof.
  split.
  - apply (proj1 (get_note_event_indices_spec 60 3 false)). by vm_compute.
  - apply (proj2 (get_note_event_indices_spec 60 16 true)).
    unfold max_instruments. lia.
Defined.

(** X2. Turning indices into events and back: for indices of
    [[0, vocab_size)], [events_to_indices] of [indices_to_events] gives the
    indices back; an index of [[-vocab_size, 0)] comes back as the
    non-negative index of the same entry. *)
Theorem events_of_indices_roundtrip (index_list : list Z) :
  Forall (λ i, - vocab_size ≤ i < vocab_size) index_list →
  ∃ event_list,
    indices_to_events index_list = Ok event_list
    ∧ events_to_indices event_list = Ok (wrap_index <$> index_list)
    ∧ (Forall (λ i, 0 ≤ i) index_list →
       events_to_indices event_list = Ok index_list).
Proof.
  intros Hil. eexists. split; [by apply indices_to_events_wrap|].
  assert (events_to_indices (render ∘ symbol_of_index ∘ wrap_index <$> index_list)
          = Ok (wrap_index <$> index_list)) as Hback.
  { apply mapM_result_Forall2, Forall2_fmap, Forall_Forall2_diag.
    eapply Forall_impl; [done|]. intros i Hi. simpl.
    destruct (getitem_wrap_index i Hi) as [_ Hw].
    rewrite vocab_size_eq in Hw.
    destruct (symbol_of_index_constructible _ Hw) as [Hc Hidx].
    by rewrite index_render, Hidx. }
  split; [done|]. intros Hpos. rewrite Hback. f_equal.
  rewrite <- (list_fmap_id index_list) at 2. apply Forall_fmap_ext.
  eapply Forall_impl; [exact Hpos|]. intros i Hi. cbv beta in Hi.
  unfold wrap_index. by rewrite decide_False by lia.
Qed.

Lemma events_of_indices_roundtrip_witness :
  ∃ event_list,
    indices_to_events [4382; -1; 61] = Ok event_list
    ∧ events_to_indices event_list = Ok (wrap_index <$> [4382; -1; 61])
    ∧ (Forall (λ i, 0 ≤ i) [4382; -1; 61] →
       events_to_indices event_list = Ok [4382; -1; 61]).
Proof.
  apply (events_of_indices_roundtrip [4382; -1; 61]).
  repeat constructor; by vm_compute.
Defined.

(** X3. [events_to_indices] returns exactly when every event is a string of
    [vocab], and raises [ValueError] otherwise; when it returns, the indices
    lie in [[0, vocab_size)] and [indices_to_events] gives the events
    back. *)
Theorem indices_of_events_roundtrip (event_list : list string) :
  (Forall (λ ev, ev ∈ vocab) event_list →
   ∃ index_list,
     events_to_indices event_list = Ok index_list
     ∧ Forall (λ i, 0 ≤ i < vocab_size) index_list
     ∧ indices_to_events index_list = Ok event_list)
  ∧ (¬ Forall (λ ev, ev ∈ vocab) event_list →
     events_to_indices event_list = Err ValueError).
Proof.
  split.
  - induction 1 as [|ev l Hev _ (il & Hil & Hr & Hback)].
    + by exists [].
    + apply elem_of_vocab in Hev as (sym & Hc & ->).
      destruct (index_of_symbol_constructible sym Hc) as [Hi Hs].
      exists (index_of_symbol sym :: il).
      unfold events_to_indices, indices_to_events in *. simpl.
      rewrite index_render, Hil by done. simpl.
      rewrite getitem_vocab, Hs, Hback by (by rewrite vocab_size_eq).
      split; [done|]. split; [|done].
      constructor; [by rewrite vocab_size_eq|done].
  - intros Hnot. apply not_Forall_Exists in Hnot; [|apply _].
    apply mapM_result_raises.
    + eapply Exists_impl; [done|]. intros ev Hev. simpl in Hev.
      unfold Py.index.
      destruct (list_find _ vocab) as [[i s]|] eqn:E; [|done].
      apply list_find_Some in E as (Hi & -> & _).
      destruct Hev. by eapply list_elem_of_lookup_2.
    + apply Forall_true. intros ev. unfold Py.index.
      destruct (list_find _ vocab) as [[??]|]; [left; by eexists|by right].
Qed.

Lemma indices_of_events_roundtrip_witness :
  (∃ index_list,
     events_to_indices ["<start>"; "note_on_60_0"] = Ok index_list
     ∧ Forall (λ i, 0 ≤ i < vocab_size) index_list
     ∧ indices_to_events index_list = Ok ["<start>"; "note_on_60_0"])
  ∧ events_to_indices ["note_on_60_16"] = Err ValueError.
Proof.
  split.
  - apply (proj1 (indices_of_events_roundtrip ["<start>"; "note_on_60_0"])).
    apply Forall_cons_2; [|apply Forall_cons_2; [|apply Forall_nil_2]].
    + apply (list_elem_of_lookup_2 _ 4382). reflexivity.
    + apply (list_elem_of_lookup_2 _ 61). reflexivity.
  - apply (proj2 (indices_of_events_roundtrip ["note_on_60_16"])).
    intros H. apply Forall_cons in H as [H _].
    apply (note_str_unknown note_on 60 0 16 0);
      [done|unfold max_instruments; lia|exact H].
Defined.

(** ** Quantizer *)

(** X4. [velocity_to_bin] returns exactly for velocities 0..127, and raises
    [ValueError] otherwise; the bin lies in [[0, velocity_events)], the
    velocity lies in the [BIN_STEP] values of its bin, and a larger
    velocity never gets a smaller bin. With a [step] that does not divide
    128 the call raises [ValueError] whatever the velocity, and with
    [step = 0] it raises [ZeroDivisionError]. *)
Theorem velocity_to_bin_spec_mono :
  (∀ v, 0 ≤ v ≤ 127 →
     ∃ b, velocity_to_bin v = Ok b ∧ 0 ≤ b < velocity_events
          ∧ b * BIN_STEP ≤ v < (b + 1) * BIN_STEP)
  ∧ (∀ v, ¬ (0 ≤ v ≤ 127) → velocity_to_bin v = Err ValueError)
  ∧ (∀ v w b c, v ≤ w → velocity_to_bin v = Ok b →
                velocity_to_bin w = Ok c → b ≤ c)
  ∧ (∀ v step, step ≠ 0 → 128 `mod` step ≠ 0 →
               velocity_to_bin_step v step = Err ValueError)
  ∧ (∀ v, velocity_to_bin_step v 0 = Err ZeroDivisionError).
Proof.
  split; [|split; [|split; [|split]]].
  - intros v Hv. exists (v `div` 4).
    split; [by apply velocity_to_bin_spec|].
    change BIN_STEP with 4. unfold velocity_events.
    pose proof (Z.div_mod v 4). pose proof (Z.mod_pos_bound v 4). lia.
  - intros v Hv. destruct (velocity_to_bin_cases v) as [[b Hb]|]; [|done].
    apply velocity_to_bin_spec in Hb. tauto.
  - intros v w b c Hvw [_ ->]%velocity_to_bin_spec [_ ->]%velocity_to_bin_spec.
    by apply Z.div_le_mono.
  - intros v step Hs Hm. unfold velocity_to_bin_step, Py.mod_.
    rewrite decide_False by done. cbn [mbind result_bind].
    by rewrite decide_True.
  - done.
Qed.

Lemma velocity_to_bin_spec_mono_witness :
  (∃ b, velocity_to_bin 127 = Ok b ∧ 0 ≤ b < velocity_events
        ∧ b * BIN_STEP ≤ 127 < (b + 1) * BIN_STEP)
  ∧ velocity_to_bin 128 = Err ValueError
  ∧ velocity_to_bin_step 100 3 = Err ValueError.
Proof.
  destruct velocity_to_bin_spec_mono as (H1 & H2 & _ & H4 & _).
  split; [|split].
  - apply (H1 127). lia.
  - apply (H2 128). lia.
  - apply (H4 100 3); [lia|by vm_compute].
Defined.

(** X5. [bin_to_velocity] returns exactly for the bins of
    [[0, velocity_events)], and raises [ValueError] otherwise; the velocity
    it returns is the lowest of the bin, and [velocity_to_bin] maps it back
    to the bin. *)
Theorem bin_to_velocity_spec :
  (∀ b, 0 ≤ b < velocity_events →
     ∃ v, bin_to_velocity b = Ok v ∧ v = b * BIN_STEP ∧ 0 ≤ v ≤ 127
          ∧ velocity_to_bin v = Ok b)
  ∧ (∀ b, ¬ (0 ≤ b < velocity_events) → bin_to_velocity b = Err ValueError).
Proof.
  unfold velocity_events, bin_to_velocity, bin_to_velocity_step.
  change BIN_STEP with 4. split.
  - intros b Hb. exists (b * 4). rewrite bool_decide_eq_true_2 by lia.
    split; [done|]. split; [done|]. split; [lia|].
    apply velocity_to_bin_spec. split; [lia|]. by rewrite Z.div_mul.
  - intros b Hb. by rewrite bool_decide_eq_false_2 by lia.
Qed.

Lemma bin_to_velocity_spec_witness :
  (∃ v, bin_to_velocity 31 = Ok v ∧ v = 31 * BIN_STEP ∧ 0 ≤ v ≤ 127
        ∧ velocity_to_bin v = Ok 31)
  ∧ bin_to_velocity 32 = Err ValueError.
Proof.
  split.
  - apply (proj1 bin_to_velocity_spec 31). unfold velocity_events. lia.
  - apply (proj2 bin_to_velocity_spec 32). unfold velocity_events. lia.
Defined.

(** X6. [round_] rounds to the nearest integer, a half going up: its result
    [n] is the integer with [n - 1/2 <= a < n + 1/2]. *)
Theorem round_half_up (a : Q) :
  Qle (Qminus (inject_Z (round_ a)) (1 # 2)) a
  ∧ Qlt a (Qplus (inject_Z (round_ a)) (1 # 2)).
Proof.
  unfold round_.
  pose proof (Qfloor_le a) as Hlo. pose proof (Qlt_floor a) as Hhi.
  rewrite inject_Z_plus in Hhi.
  destruct (Qle_bool _ _) eqn:E.
  - apply Qle_bool_iff in E. rewrite inject_Z_plus.
    change (inject_Z 1) with 1%Q in *. split; lra.
  - assert (¬ Qle (1 # 2) (Qminus a (inject_Z (Qfloor a)))) as E'
      by (intros H; apply Qle_bool_iff in H; congruence).
    apply Qnot_le_lt in E'. rewrite Z.add_0_r.
    change (inject_Z 1) with 1%Q in *. split; lra.
Qed.

(** X7. For a gap [d >= 0] the units of [time_cutter] add up to [d / DIV]
    rounded half up: cutting the gap in blocks of [LTH] loses nothing beyond
    the rounding of the whole gap. Hence a larger gap never gets a smaller
    total. *)
Theorem time_cutter_total (d : Z) :
  0 ≤ d →
  ∃ units q,
    time_cutter d = Ok units
    ∧ Py.truediv d DIV = Ok q
    ∧ sumZ units = round_ q
    ∧ sumZ units = (d + 4) `div` 8
    ∧ ∀ d' units', d ≤ d' → time_cutter d' = Ok units' →
                   sumZ units ≤ sumZ units'.
Proof.
  intros Hd.
  assert (Htot : ∀ n, 0 ≤ n →
            sumZ (replicate (Z.to_nat (n `div` LTH)) 125
                  ++ (if decide (leftover n > 0) then [leftover n] else []))
            = (n + 4) `div` 8).
  { intros n Hn. rewrite sumZ_app, sumZ_replicate.
    rewrite Z2Nat.id by (apply Z.div_pos; unfold LTH; lia).
    assert (sumZ (if decide (leftover n > 0) then [leftover n] else [])
            = leftover n) as ->.
    { pose proof (leftover_bounds n). case_decide; unfold sumZ; simpl; lia. }
    unfold leftover. change LTH with 1000.
    rewrite (Z.div_mod n 1000) at 3 by lia.
    replace (1000 * (n `div` 1000) + n `mod` 1000 + 4)
      with (n `mod` 1000 + 4 + n `div` 1000 * 125 * 8) by lia.
    rewrite Z.div_add by lia. lia. }
  eexists _, _. split; [apply time_cutter_eq|]. split; [reflexivity|].
  rewrite Htot by done. split; [|split; [done|]].
  - change DIV with 8. rewrite round_truediv by lia.
    rewrite <- (Z.div_mul_cancel_l (d + 4) 8 2) by lia. f_equal; lia.
  - intros d' units' Hdd'. rewrite time_cutter_eq. intros [= <-].
    rewrite Htot by lia. apply Z.div_le_mono; lia.
Qed.

Lemma time_cutter_total_witness :
  ∃ units q,
    time_cutter 2500 = Ok units
    ∧ Py.truediv 2500 DIV = Ok q
    ∧ sumZ units = round_ q
    ∧ sumZ units = (2500 + 4) `div` 8
    ∧ ∀ d' units', 2500 ≤ d' → time_cutter d' = Ok units' →
                   sumZ units ≤ sumZ units'.
Proof. apply (time_cutter_total 2500). lia. Defined.

(** X8. [time_cutter] returns one unit of [time_shift_events] for every full
    [LTH] in the gap (none for a negative gap), followed by one more unit
    exactly when the rest [r] of the gap modulo [LTH] is 4 or more. That
    unit is [(r + 4) // 8]: it lies between 1 and [time_shift_events], and
    it is [time_shift_events] again exactly when [r >= 996]. For a gap
    [d >= 0] no unit at all is returned exactly when [d <= 3]. *)
Theorem time_cutter_shape (d : Z) :
  time_cutter d
  = Ok (replicate (Z.to_nat (d `div` LTH)) time_shift_events
          ++ (if decide (4 ≤ d `mod` LTH) then [(d `mod` LTH + 4) `div` 8]
              else []))
  ∧ (4 ≤ d `mod` LTH → 1 ≤ (d `mod` LTH + 4) `div` 8 ≤ time_shift_events)
  ∧ ((d `mod` LTH + 4) `div` 8 = time_shift_events ↔ 996 ≤ d `mod` LTH)
  ∧ (0 ≤ d → (time_cutter d = Ok [] ↔ d ≤ 3)).
Proof.
  pose proof (Z.mod_pos_bound d LTH eq_refl) as Hmod.
  assert (Hl : leftover d > 0 ↔ 4 ≤ d `mod` LTH).
  { unfold leftover. split; intros H'.
    - destruct (decide (4 ≤ d `mod` LTH)); [done|].
      rewrite Z.div_small in H' by lia. lia.
    - enough (1 ≤ (d `mod` LTH + 4) `div` 8) by lia.
      apply Z.div_le_lower_bound; lia. }
  assert (Heq : time_cutter d
                = Ok (replicate (Z.to_nat (d `div` LTH)) time_shift_events
                        ++ (if decide (4 ≤ d `mod` LTH)
                            then [(d `mod` LTH + 4) `div` 8] else []))).
  { rewrite time_cutter_eq. fold (leftover d). do 2 f_equal.
    destruct (decide (leftover d > 0)), (decide (4 ≤ d `mod` LTH));
      try done; tauto. }
  split; [done|]. split; [|split].
  - intros Hr. pose proof (leftover_bounds d) as Hb. fold (leftover d).
    unfold time_shift_events. apply Hl in Hr. lia.
  - unfold time_shift_events. change LTH with 1000 in *. split.
    + intros Hu. destruct (decide (996 ≤ d `mod` 1000)); [done|].
      enough ((d `mod` 1000 + 4) `div` 8 < 125) by lia.
      apply Z.div_lt_upper_bound; lia.
    + intros Hr. apply Z.le_antisymm.
      * enough ((d `mod` 1000 + 4) `div` 8 < 126) by lia.
        apply Z.div_lt_upper_bound; lia.
      * apply Z.div_le_lower_bound; lia.
  - intros Hd. rewrite Heq. split.
    + intros [= [Hr Hrest]%app_nil].
      destruct (decide (d ≤ 3)) as [|Hgt]; [done|].
      exfalso. eapply (time_cutter_nonempty d); [lia|apply Heq|].
      by rewrite Hr, Hrest.
    + intros Hd3. rewrite Z.div_small by (unfold LTH; lia).
      rewrite decide_False; [done|].
      rewrite Z.mod_small by (unfold LTH; lia). lia.
Qed.

Lemma time_cutter_shape_witness :
  time_cutter 2999 = Ok [125; 125; 125]
  ∧ 1 ≤ 125 ≤ time_shift_events
  ∧ (0 ≤ 2 ∧ time_cutter 2 = Ok []).
Proof.
  destruct (time_cutter_shape 2999) as (H1 & H2 & _).
  destruct (time_cutter_shape 2) as (_ & _ & _ & H4).
  split; [exact H1|]. split; [apply H2; by vm_compute|].
  split; [lia|]. apply H4; lia.
Defined.

(** ** The contents of the vocabulary *)

(** X9. Which strings [vocab] holds: a note string exactly for notes of
    0..127 on instruments 0..15, a time-shift string exactly for 0..124, a
    velocity string exactly for bins 0..31 and an instrument string exactly
    for programs 0..127. With the three special tokens this is all of it:
    [vocab_size] is the sum of the sizes of these families. *)
Theorem vocab_membership :
  (∀ n i, "note_on_" +:+ Py.str n +:+ "_" +:+ Py.str i ∈ vocab
          ↔ 0 ≤ n < note_on_events ∧ 0 ≤ i < max_instruments)
  ∧ (∀ n i, "note_off_" +:+ Py.str n +:+ "_" +:+ Py.str i ∈ vocab
            ↔ 0 ≤ n < note_off_events ∧ 0 ≤ i < max_instruments)
  ∧ (∀ u, "time_shift_" +:+ Py.str u ∈ vocab ↔ 0 ≤ u < time_shift_events)
  ∧ (∀ b, "set_velocity_" +:+ Py.str b ∈ vocab ↔ 0 ≤ b < velocity_events)
  ∧ (∀ p, "set_instrument_" +:+ Py.str p ∈ vocab
          ↔ 0 ≤ p < instrument_events)
  ∧ vocab_size
    = 1 + max_instruments * note_on_events + max_instruments * note_off_events
      + time_shift_events + velocity_events + instrument_events + 2.
Proof.
  assert (H : ∀ s, render s ∈ vocab ↔ constructible s).
  { intros s. split; [apply render_in_vocab|].
    intros Hs. apply elem_of_vocab. eauto. }
  split; [|split; [|split; [|split; [|split]]]].
  - intros n i. apply (H (NOTE_ON n i)).
  - intros n i. apply (H (NOTE_OFF n i)).
  - intros u. apply (H (TIME_SHIFT u)).
  - intros b. apply (H (SET_VELOCITY b)).
  - intros p. apply (H (SET_INSTRUMENT p)).
  - by rewrite vocab_size_eq.
Qed.

(** ** The first pass of midi_parser *)

Section first_pass.

Lemma first_tempo_cons (msg : Message) (msgs : list Message) :
  first_tempo (msg :: msgs)
  = match msg_tempo msg with
    | Some tempo => if decide (tempo = 0) then first_tempo msgs else tempo
    | None => first_tempo msgs
    end.
Proof.
  unfold first_tempo. simpl. destruct (msg_tempo msg) as [tempo|]; [|done].
  rewrite filter_cons. repeat case_decide; done.
Qed.

Lemma collect_msgs_tempo (st : collector) (msgs : list Message) :
  c_tempo (foldl collect_msg st msgs)
  = if decide (c_tempo st = 0) then first_tempo msgs else c_tempo st.
Proof.
  revert st. induction msgs as [|msg msgs IH]; intros st; simpl.
  - by case_decide.
  - rewrite IH, first_tempo_cons.
    destruct msg; unfold collect_msg; simpl; repeat case_decide; simpl in *;
      congruence.
Qed.

(** The event, if any, that one message adds. *)
Lemma collect_msg_one (st : collector) (msg : Message) :
  c_current_time (collect_msg st msg) = c_current_time st + msg_time msg
  ∧ match msg_event_type msg with
    | Some ty =>
        ∃ e, c_absolute_events (collect_msg st msg)
             = c_absolute_events st ++ [e]
             ∧ MidiEvent.type e = ty
             ∧ MidiEvent.time e = c_current_time st + msg_time msg
             ∧ (ty = note_on →
                ∃ v, MidiEvent.velocity e = Some v ∧ v ≠ 0)
    | None => c_absolute_events (collect_msg st msg) = c_absolute_events st
    end.
Proof.
  destruct msg; unfold collect_msg; simpl; repeat case_decide; simpl;
    (split; [done|]); try done; eexists; (split; [done|]); simpl;
    (split; [done|]); (split; [done|]); intros; eauto; done.
Qed.

Lemma collect_msgs_spec (st : collector) (msgs : list Message) :
  ∃ new,
    c_absolute_events (foldl collect_msg st msgs) = c_absolute_events st ++ new
    ∧ MidiEvent.type <$> new = omap msg_event_type msgs
    ∧ c_current_time (foldl collect_msg st msgs)
      = c_current_time st + sumZ (msg_time <$> msgs)
    ∧ Forall (λ e, MidiEvent.type e = note_on →
                   ∃ v, MidiEvent.velocity e = Some v ∧ v ≠ 0) new.
Proof.
  revert st. induction msgs as [|msg msgs IH]; intros st; cbn [foldl].
  - exists []. rewrite app_nil_r. unfold sumZ. simpl.
    split; [done|]. split; [done|]. split; [lia|constructor].
  - destruct (IH (collect_msg st msg)) as (new & Hev & Hty & Ht & Hv).
    destruct (collect_msg_one st msg) as [Ht1 Hone].
    rewrite Hev, Ht, Ht1, fmap_cons.
    change (sumZ (msg_time msg :: (msg_time <$> msgs)))
      with (msg_time msg + sumZ (msg_time <$> msgs)).
    change (omap msg_event_type (msg :: msgs))
      with (match msg_event_type msg with
            | Some ty => ty :: omap msg_event_type msgs
            | None => omap msg_event_type msgs
            end).
    destruct (msg_event_type msg) as [ty|].
    + destruct Hone as (e & -> & Hte & _ & Hve).
      exists (e :: new). rewrite <- app_assoc. split; [done|].
      split; [by rewrite fmap_cons, Hte, Hty|]. split; [lia|].
      constructor; [|done]. intros Hon. apply Hve. congruence.
    + rewrite Hone. exists new. split; [done|]. split; [done|].
      split; [lia|done].
Qed.

End first_pass.

(** X10. The tempo that [midi_parser] returns is the tempo of the first
    set_tempo message, over all tracks in order, whose tempo is not 0; it is
    0 when there is none. *)
Theorem midi_parser_tempo (mid : MidiFile) :
  c_tempo (collect mid) = first_tempo (concat mid)
  ∧ ∀ index_list event_list tempo,
      midi_parser mid = Ok (index_list, event_list, tempo) →
      tempo = first_tempo (concat mid).
Proof.
  assert (c_tempo (collect mid) = first_tempo (concat mid)) as H.
  { rewrite collect_concat, collect_msgs_tempo. done. }
  split; [done|]. intros il el tempo. unfold midi_parser.
  destruct (encode_events _) as [[??]|]; [|done].
  cbn [mbind result_bind]. intros [= _ _ <-]. done.
Qed.

Lemma midi_parser_tempo_witness :
  0 = first_tempo (concat scenario).
Proof.
  apply (proj2 (midi_parser_tempo scenario)
           [4382; 4247; 61; 4159; 2109; 4383]
           ["<start>"; "set_velocity_25"; "note_on_60_0"; "time_shift_62";
            "note_off_60_0"; "<end>"] 0).
  by vm_compute.
Defined.

(** X11. The first pass makes one event of each note-on, note-off and
    program-change message, in the order of the messages over all tracks,
    and none of any other message. A note-on message with velocity 0 gives
    a note-off event, so that a note-on event never has velocity 0. *)
Theorem collect_event_types (mid : MidiFile) :
  MidiEvent.type <$> c_absolute_events (collect mid)
  = omap msg_event_type (concat mid)
  ∧ Forall (λ e, MidiEvent.type e = note_on →
                 ∃ v, MidiEvent.velocity e = Some v ∧ v ≠ 0)
      (c_absolute_events (collect mid)).
Proof.
  rewrite collect_concat.
  destruct (collect_msgs_spec collect_init (concat mid))
    as (new & -> & Hty & _ & Hv).
  done.
Qed.

(** X12. An event is stamped with the sum of the deltas of all the messages
    read so far, its own included, whatever the tracks they are in: the
    event of the message [msg] of [concat mid = pre ++ msg :: post] is the
    one after the events of [pre], and its time is the sum of the times of
    [pre] and of [msg]. *)
Theorem collect_event_time (mid : MidiFile) (pre post : list Message)
    (msg : Message) (ty : EventType) :
  concat mid = pre ++ msg :: post →
  msg_event_type msg = Some ty →
  ∃ e,
    c_absolute_events (collect mid) !! length (omap msg_event_type pre)
    = Some e
    ∧ MidiEvent.type e = ty
    ∧ MidiEvent.time e = sumZ (msg_time <$> pre) + msg_time msg.
Proof.
  intros Hmid Hty. rewrite collect_concat, Hmid, foldl_app. simpl.
  destruct (collect_msgs_spec collect_init pre)
    as (new1 & Hev1 & Hty1 & Ht1 & _).
  destruct (collect_msg_one (foldl collect_msg collect_init pre) msg)
    as [_ Hone].
  rewrite Hty in Hone. destruct Hone as (e & Hev & Hte & Htime & _).
  destruct (collect_msgs_spec
              (collect_msg (foldl collect_msg collect_init pre) msg) post)
    as (new2 & -> & _).
  exists e. rewrite Hev, Hev1. simpl.
  rewrite <- Hty1, length_fmap.
  split; [|split; [done|]].
  - rewrite lookup_app_l by (rewrite length_app; simpl; lia).
    by rewrite lookup_app_r, Nat.sub_diag by lia.
  - rewrite Htime, Ht1. simpl. lia.
Qed.

Lemma collect_event_time_witness :
  ∃ e,
    c_absolute_events (collect two_tracks)
      !! length (omap msg_event_type [NoteOn 0 60 100 0; NoteOff 0 60 0 500])
    = Some e
    ∧ MidiEvent.type e = note_on
    ∧ MidiEvent.time e
      = sumZ (msg_time <$> [NoteOn 0 60 100 0; NoteOff 0 60 0 500])
        + msg_time (NoteOn 1 64 100 0).
Proof.
  apply (collect_event_time two_tracks
           [NoteOn 0 60 100 0; NoteOff 0 60 0 500] [] (NoteOn 1 64 100 0)
           note_on); reflexivity.
Defined.

(** X13. When no delta is negative, the events of the first pass are in time
    order as they are, so the sort leaves them in place: [midi_parser]
    encodes the events in the order of their messages, track after
    track. *)
Theorem midi_parser_file_order (mid : MidiFile) :
  Forall (λ msg, 0 ≤ msg_time msg) (concat mid) →
  Sorted by_time (c_absolute_events (collect mid))
  ∧ midi_parser mid
    = ('(index_list, event_list) ←
         encode_events (c_absolute_events (collect mid));
       Ok (index_list, event_list, c_tempo (collect mid))).
Proof.
  intros Hmid. pose proof (collect_already_sorted mid Hmid) as Hs.
  split.
  - rewrite <- Hs. apply sort_by_time_Sorted.
  - unfold midi_parser. by rewrite Hs.
Qed.

Lemma midi_parser_file_order_witness :
  Sorted by_time (c_absolute_events (collect two_tracks)).
Proof.
  apply (midi_parser_file_order two_tracks).
  repeat (apply Forall_cons_2; [by vm_compute|]). apply Forall_nil_2.
Defined.

Section second_pass.

Lemma foldM_Ok {A S} (f : S → A → result S) (s : S) (l : list A) :
  Forall (λ x, ∀ s, is_Ok (f s x)) l → is_Ok (foldM f s l).
Proof.
  intros Hl. revert s. induction Hl as [|x l Hx _ IH]; intros s; simpl.
  - by eexists.
  - destruct (Hx s) as [s' ->]. apply IH.
Qed.

Lemma foldM_Ok_inv {A S} (f : S → A → result S) (s : S) (l : list A) :
  is_Ok (foldM f s l) → Forall (λ x, ∃ s1, is_Ok (f s1 x)) l.
Proof.
  revert s. induction l as [|x l IH]; intros s; simpl; [constructor|].
  destruct (f s x) as [s'|] eqn:E; simpl; [|by intros [??]].
  intros H. constructor; [|by eapply IH].
  exists s. rewrite E. by eexists.
Qed.

Lemma foldM_cases {A S} (f : S → A → result S) (e : PyError) (s : S)
    (l : list A) :
  Forall (λ x, ∀ s, is_Ok (f s x) ∨ f s x = Err e) l →
  is_Ok (foldM f s l) ∨ foldM f s l = Err e.
Proof.
  intros Hl. revert s. induction Hl as [|x l Hx _ IH]; intros s; simpl.
  - left. by eexists.
  - destruct (Hx s) as [[s' ->]| ->]; [apply IH|by right].
Qed.

Lemma emit_render_Ok (s : Symbol) (st : encoder) :
  constructible s → is_Ok (emit (render s) st).
Proof. intros Hs. unfold emit. rewrite index_render by done. by eexists. Qed.

Lemma encode_event_Ok (st : encoder) (e : MidiEvent.t) :
  encodable e → is_Ok (encode_event st e).
Proof.
  intros He. unfold encode_event.
  destruct (advance_time_Ok st e) as [st1 ->]. cbn [mbind result_bind].
  unfold encodable in He. destruct (MidiEvent.type e); cbn [type_str].
  - destruct He as (n & v & -> & -> & Hn & Hv & Hi).
    cbn [velocity_to_bin_opt Py.str_opt].
    assert (velocity_to_bin v = Ok (v `div` 4)) as ->
      by (by apply velocity_to_bin_spec).
    cbn [mbind result_bind].
    destruct (emit_render_Ok (SET_VELOCITY (v `div` 4)) st1) as [st2 E2].
    { cbn [constructible]. unfold velocity_events.
      split; [apply Z.div_pos|apply Z.div_lt_upper_bound]; lia. }
    cbn [render] in E2. rewrite E2. cbn [mbind result_bind].
    by apply (emit_render_Ok (NOTE_ON n (MidiEvent.instrument e))).
  - destruct He as (n & -> & Hn & Hi). cbn [Py.str_opt].
    by apply (emit_render_Ok (NOTE_OFF n (MidiEvent.instrument e))).
  - destruct He as (p & -> & Hp). cbn [Py.str_opt].
    by apply (emit_render_Ok (SET_INSTRUMENT p)).
Qed.

Lemma encode_event_encodable (st : encoder) (e : MidiEvent.t) :
  wf_event e → is_Ok (encode_event st e) → encodable e.
Proof.
  intros Hwf [st' E].
  apply encode_event_symbols in E as (_ & syms & _ & [Hc Htok] & _); [|done].
  unfold encodable. destruct (MidiEvent.type e).
  - destruct Htok as (n & v & b & Hn & Hv & Hb & ->).
    apply Forall_cons in Hc as [_ Hc]. apply Forall_cons in Hc as [[??] _].
    apply velocity_to_bin_spec in Hb as [? _]. eauto 10.
  - destruct Htok as (n & Hn & ->).
    apply Forall_cons in Hc as [[??] _]. eauto.
  - destruct Htok as (p & Hp & ->).
    apply Forall_cons in Hc as [? _]. eauto.
Qed.

End second_pass.

Lemma midi_parser_Ok_encodable (mid : MidiFile) :
  is_Ok (midi_parser mid)
  ↔ Forall encodable (c_absolute_events (collect mid)).
Proof.
  pose proof (collect_wf mid) as Hwf.
  unfold midi_parser, encode_events. split.
  - intros [[[il el] tempo] E].
    destruct (foldM _ _ _) as [est|] eqn:Efold; [|done].
    rewrite <- (sort_by_time_Permutation (c_absolute_events (collect mid))).
    rewrite <- (sort_by_time_Permutation (c_absolute_events (collect mid)))
      in Hwf.
    assert (is_Ok (foldM encode_event
              (mkEncoder ["<start>"] [start_token] 0)
              (sort_by_time (c_absolute_events (collect mid))))) as Hok
      by (rewrite Efold; by eexists).
    apply foldM_Ok_inv in Hok.
    rewrite Forall_forall in Hok, Hwf. apply Forall_forall. intros e He.
    destruct (Hok e He) as [st Hst]. eapply encode_event_encodable; eauto.
  - intros Henc.
    rewrite <- (sort_by_time_Permutation (c_absolute_events (collect mid)))
      in Henc.
    destruct (foldM_Ok encode_event
                (mkEncoder ["<start>"] [start_token] 0)
                (sort_by_time (c_absolute_events (collect mid))))
      as [est ->].
    + eapply Forall_impl; [exact Henc|]. intros e He st.
      by apply encode_event_Ok.
    + by eexists.
Qed.

(** X14. [midi_parser] returns exactly when every event of the first pass
    has its fields in the ranges of the vocabulary: a program below
    [instrument_events], a note below 128, for a note-on a velocity of
    0..127 and, for a note, an instrument below [max_instruments].
    Otherwise it raises [ValueError], and nothing else. *)
Theorem midi_parser_returns_iff (mid : MidiFile) :
  (is_Ok (midi_parser mid)
   ↔ Forall encodable (c_absolute_events (collect mid)))
  ∧ (¬ Forall encodable (c_absolute_events (collect mid)) →
     midi_parser mid = Err ValueError).
Proof.
  pose proof (collect_wf mid) as Hwf.
  pose proof (midi_parser_Ok_encodable mid) as Hiff.
  split; [done|]. intros Hnot.
  assert (is_Ok (midi_parser mid) ∨ midi_parser mid = Err ValueError)
    as [Hok|Herr]; [|tauto|done].
  unfold midi_parser, encode_events.
  destruct (foldM_cases encode_event ValueError
              (mkEncoder ["<start>"] [start_token] 0)
              (sort_by_time (c_absolute_events (collect mid))))
    as [[est ->]| ->].
  - rewrite sort_by_time_Permutation.
    eapply Forall_impl; [exact Hwf|]. intros e He st.
    by apply encode_event_cases.
  - left. by eexists.
  - by right.
Qed.

Lemma midi_parser_returns_iff_witness :
  midi_parser [[ProgramChange 3 200 0]] = Err ValueError.
Proof.
  apply (proj2 (midi_parser_returns_iff [[ProgramChange 3 200 0]])).
  intros H. apply Forall_cons in H as [(p & [= <-] & Hp) _].
  unfold instrument_events in Hp. lia.
Defined.

Section encodable_files.

Lemma collect_msgs_encodable (st : collector) (msgs : list Message) :
  Forall valid_message msgs →
  Forall (λ msg, ∀ c p t, msg = ProgramChange c p t → p < max_instruments)
    msgs →
  (∀ c p, c_channel_programs st !! c = Some p → 0 ≤ p < max_instruments) →
  Forall encodable (c_absolute_events st) →
  Forall encodable (c_absolute_events (foldl collect_msg st msgs)).
Proof.
  intros Hvalid. revert st.
  induction Hvalid as [|msg msgs Hmsg _ IH]; intros st Hlow Hmap Hev;
    [done|].
  apply Forall_cons in Hlow as [Hp Hlow]. cbn [foldl]. apply IH; [done|..].
  - intros c p. destruct msg; unfold collect_msg; simpl;
      repeat case_decide; simpl; try apply Hmap.
    destruct (decide (channel = c)) as [->|Hne].
    + rewrite lookup_insert_eq. intros [= <-].
      simpl in Hmsg. specialize (Hp _ _ _ eq_refl). lia.
    + rewrite lookup_insert_ne by done. apply Hmap.
  - assert (∀ c, 0 ≤ default 0 (c_channel_programs st !! c) < max_instruments)
      as Hdef.
    { intros c. destruct (c_channel_programs st !! c) as [p|] eqn:E; simpl.
      - by eapply Hmap.
      - unfold max_instruments. lia. }
    destruct msg; unfold collect_msg; simpl in *;
      repeat case_decide; simpl; try done;
      (apply Forall_app; split; [done|]);
      (apply Forall_cons_2; [|apply Forall_nil_2]);
      unfold encodable; simpl;
      unfold note_off_events, note_on_events, instrument_events;
      repeat (first [eexists | split; [reflexivity|] | split]);
      try apply Hdef; lia.
Qed.

End encodable_files.

(** X15. [midi_parser] returns on every file whose messages have the field
    ranges of mido and whose program changes all select a program below
    [max_instruments]. *)
Theorem midi_parser_returns_low_programs (mid : MidiFile) :
  Forall valid_message (concat mid) →
  Forall (λ msg, ∀ c p t, msg = ProgramChange c p t → p < max_instruments)
    (concat mid) →
  is_Ok (midi_parser mid).
Proof.
  intros Hvalid Hlow. apply midi_parser_Ok_encodable.
  rewrite collect_concat. by apply collect_msgs_encodable.
Qed.

Lemma midi_parser_returns_low_programs_witness :
  is_Ok (midi_parser
           [[ProgramChange 0 15 0; NoteOn 0 60 100 3; NoteOff 0 60 0 1003];
            [NoteOn 1 61 100 1]]).
Proof.
  apply midi_parser_returns_low_programs.
  - repeat (apply Forall_cons_2; [simpl; lia|]). apply Forall_nil_2.
  - repeat (apply Forall_cons_2;
            [intros c p t [=]; subst; unfold max_instruments; lia|]).
    apply Forall_nil_2.
Defined.

(** X16. A file without any note-on, note-off or program-change message, in
    particular a file without tracks, is encoded as the two tokens START and
    END. *)
Theorem midi_parser_no_events (mid : MidiFile) :
  omap msg_event_type (concat mid) = [] →
  midi_parser mid
  = Ok ([start_token; end_token], ["<start>"; "<end>"],
        first_tempo (concat mid)).
Proof.
  intros Hnone. unfold midi_parser.
  rewrite collect_concat, collect_msgs_tempo.
  destruct (collect_msgs_spec collect_init (concat mid))
    as (new & -> & Hty & _).
  rewrite Hnone in Hty. apply fmap_nil_inv in Hty as ->. done.
Qed.

Lemma midi_parser_no_events_witness :
  midi_parser [[MetaSetTempo 500000 0; OtherMessage 10]; []]
  = Ok ([start_token; end_token], ["<start>"; "<end>"], 500000).
Proof.
  apply (midi_parser_no_events [[MetaSetTempo 500000 0; OtherMessage 10]; []]).
  reflexivity.
Defined.

Section special_tokens.

Lemma event_tokens_event_symbols (e : MidiEvent.t) (syms : list Symbol) :
  event_tokens e syms → Forall is_event_symbol syms.
Proof.
  intros [_ H]. destruct (MidiEvent.type e).
  - destruct H as (?&?&?&_&_&_&->). by repeat apply Forall_cons_2.
  - destruct H as (?&_&->). by repeat apply Forall_cons_2.
  - destruct H as (?&_&->). by repeat apply Forall_cons_2.
Qed.

Lemma encode_fold_symbols (events : list MidiEvent.t) :
  Forall wf_event events →
  ∀ est est', foldM encode_event est events = Ok est' →
    ∃ syms, e_event_list est' = e_event_list est ++ (render <$> syms)
            ∧ Forall is_event_symbol syms.
Proof.
  induction 1 as [|e events He _ IH]; intros est est'.
  - intros [= <-]. exists []. by rewrite app_nil_r.
  - cbn [foldM]. destruct (encode_event est e) as [est1|] eqn:E1; [|done].
    cbn [mbind result_bind]. intros Hfold.
    apply encode_event_symbols in E1 as (units & syms & _ & Htok & Hel1);
      [|done].
    destruct (IH _ _ Hfold) as (syms' & Hel & Hsyms').
    exists ((((λ u, TIME_SHIFT (u - 1)) <$> units) ++ syms) ++ syms').
    split; [by rewrite Hel, Hel1, !fmap_app, <- !app_assoc|].
    apply Forall_app. split; [|done]. apply Forall_app.
    split; [|by eapply event_tokens_event_symbols].
    apply Forall_fmap, Forall_true. done.
Qed.

Lemma render_event_symbol (s : Symbol) (t : Symbol) :
  is_event_symbol s → ¬ is_event_symbol t → render s ≠ render t.
Proof. intros Hs Ht E. apply render_inj in E as ->. done. Qed.

End special_tokens.

(** X17. In a sequence that [midi_parser] returns, the START token is the
    first and the END token the last, and between them there is no START,
    END or PAD token; this holds of the event list and of the index
    list. *)
Theorem midi_parser_special_tokens (mid : MidiFile)
    (index_list : list Z) (event_list : list string) (tempo : Z) :
  midi_parser mid = Ok (index_list, event_list, tempo) →
  ∃ body body_idx,
    event_list = "<start>" :: body ++ ["<end>"]
    ∧ index_list = start_token :: body_idx ++ [end_token]
    ∧ Forall (λ ev, ev ≠ "<pad>" ∧ ev ≠ "<start>" ∧ ev ≠ "<end>") body
    ∧ Forall (λ i, i ≠ pad_token ∧ i ≠ start_token ∧ i ≠ end_token) body_idx.
Proof.
  unfold midi_parser, encode_events.
  destruct (foldM _ _ _) as [est|] eqn:E; [|done].
  cbn [mbind result_bind]. intros [= <- <- <-].
  pose proof (encode_events_inv _ _ E) as (HF & _ & _ & Hi).
  assert (Forall wf_event (sort_by_time (c_absolute_events (collect mid))))
    as Hwf by (rewrite sort_by_time_Permutation; apply collect_wf).
  destruct (encode_fold_symbols _ Hwf _ _ E) as (syms & Hel & Hsyms).
  cbn [e_event_list app] in Hel. rewrite Hel in HF.
  destruct (e_index_list est) as [|i0 body_idx]; [by inversion HF|].
  injection Hi as ->. apply Forall2_cons in HF as [_ HF].
  exists (render <$> syms), body_idx. rewrite Hel.
  split; [done|]. split; [done|].
  assert (Hbody : Forall (λ ev, ev ≠ "<pad>" ∧ ev ≠ "<start>" ∧ ev ≠ "<end>")
                    (render <$> syms)).
  { apply Forall_fmap. eapply Forall_impl; [exact Hsyms|]. intros s Hs.
    repeat split.
    - exact (render_event_symbol s PAD Hs (λ x, x)).
    - exact (render_event_symbol s START Hs (λ x, x)).
    - exact (render_event_symbol s END Hs (λ x, x)). }
  split; [done|].
  destruct special_tokens as (-> & -> & ->).
  clear Hel E. revert HF Hbody. generalize (render <$> syms).
  induction body_idx as [|i body_idx IH]; intros evs HF Hbody; [constructor|].
  destruct evs as [|ev evs]; [by inversion HF|].
  apply Forall2_cons in HF as [Hd HF]. apply Forall_cons in Hbody as [Hev Hb].
  constructor; [|by eapply IH].
  pose proof (denotes_render _ _ Hd) as ->.
  destruct Hev as (Hp & Hs & He).
  repeat split; intros ->; [by apply Hp|by apply Hs|by apply He].
Qed.

Lemma midi_parser_special_tokens_witness :
  ∃ body body_idx,
    ["<start>"; "set_velocity_25"; "note_on_60_0"; "time_shift_62";
     "note_off_60_0"; "<end>"] = "<start>" :: body ++ ["<end>"]
    ∧ [4382; 4247; 61; 4159; 2109; 4383]
      = start_token :: body_idx ++ [end_token]
    ∧ Forall (λ ev, ev ≠ "<pad>" ∧ ev ≠ "<start>" ∧ ev ≠ "<end>") body
    ∧ Forall (λ i, i ≠ pad_token ∧ i ≠ start_token ∧ i ≠ end_token) body_idx.
Proof.
  apply (midi_parser_special_tokens scenario _ _ 0). by vm_compute.
Defined.

Section decoding_loop.

Lemma foldM_render (st : decoder) (syms : list Symbol) :
  foldM list_parser_step st (render <$> syms) = foldM decode_symbol st syms.
Proof.
  revert st. induction syms as [|s syms IH]; intros st; [done|].
  rewrite fmap_cons. cbn [foldM]. rewrite list_parser_step_render.
  destruct (decode_symbol st s); [|done]. cbn [mbind result_bind]. apply IH.
Qed.

Lemma list_parser_event_list (event_list : list string) (fname : string)
    (tempo : Z) :
  list_parser None (Some event_list) fname tempo
  = (st ← decode_events event_list fname tempo; Ok (d_tracks st)).
Proof. reflexivity. Qed.

Lemma file_time_cons (track : MidiTrack) (mid : MidiFile) :
  file_time (track :: mid) = sumZ (msg_time <$> track) + file_time mid.
Proof. unfold file_time. cbn [concat]. by rewrite fmap_app, sumZ_app. Qed.

Lemma file_time_app (l k : MidiFile) :
  file_time (l ++ k) = file_time l + file_time k.
Proof. unfold file_time. by rewrite concat_app, fmap_app, sumZ_app. Qed.

Lemma file_time_alter (tracks : MidiFile) (pos : nat) (msg : Message) :
  (pos < length tracks)%nat →
  file_time (alter (λ track, track ++ [msg]) pos tracks)
  = file_time tracks + msg_time msg.
Proof.
  revert pos. induction tracks as [|track tracks IH]; intros [|pos] Hpos;
    simpl in Hpos; try lia.
  - cbn [alter list_alter]. rewrite !file_time_cons, fmap_app, sumZ_app.
    cbn. lia.
  - cbn [alter list_alter]. rewrite !file_time_cons.
    change (list_alter ?f pos tracks) with (alter f pos tracks).
    rewrite IH by lia. lia.
Qed.

Lemma instruments_of_snoc (seen : list Symbol) (s : Symbol) :
  instruments_of (seen ++ [s])
  = instruments_of seen ∪ from_option singleton ∅ (instrument_of s).
Proof.
  unfold instruments_of. rewrite omap_app, list_to_set_app_L.
  f_equal. cbn [omap list_omap].
  destruct (instrument_of s); cbn; [apply union_empty_r_L|done].
Qed.

Lemma pending_units_snoc (seen : list Symbol) (s : Symbol) :
  pending_units (seen ++ [s]) = pending_step (pending_units seen) s.
Proof. unfold pending_units. by rewrite foldl_app. Qed.

Lemma shift_sum_snoc (seen : list Symbol) (s : Symbol) :
  sumZ (shift_of <$> seen ++ [s]) = sumZ (shift_of <$> seen) + shift_of s.
Proof. rewrite fmap_app, sumZ_app. cbn. lia. Qed.

Lemma tracks_inv_fields (fname : string) (tempo : Z) (st st' : decoder)
    (keys : gset Z) :
  d_tracks st' = d_tracks st →
  d_instrument_tracks st' = d_instrument_tracks st →
  d_current_velocity st' = d_current_velocity st →
  tracks_inv fname tempo st keys → tracks_inv fname tempo st' keys.
Proof.
  intros Ht Hm Hv []. split; rewrite ?Ht, ?Hm, ?Hv; done.
Qed.

Lemma ensure_track_tracks_inv (fname : string) (tempo : Z)
    (key program_ : Z) (st st' : decoder) (keys : gset Z) :
  tracks_inv fname tempo st keys → ensure_track key program_ st = Ok st' →
  tracks_inv fname tempo st' (keys ∪ {[key]})
  ∧ file_time (d_tracks st') = file_time (d_tracks st)
  ∧ d_delta_time st' = d_delta_time st
  ∧ d_current_velocity st' = d_current_velocity st
  ∧ is_Some (d_instrument_tracks st' !! key).
Proof.
  intros [Hh Hk Hl Ht Ha Hv]. unfold ensure_track.
  destruct (d_instrument_tracks st !! key) as [pos|] eqn:E.
  - intros [= <-]. rewrite E. split; [|done]. split; try done.
    apply elem_of_dom_2 in E. rewrite <- Hk, (comm_L (∪)). symmetry.
    by apply subseteq_union_1_L, singleton_subseteq_l.
  - unfold mido.program_change, mido.check_data_byte, mido.check_channel.
    destruct (bool_decide (0 ≤ program_ ≤ 127)); [|done].
    destruct (bool_decide (0 ≤ key `mod` 16 ≤ 15)); [|done].
    cbn [mbind result_bind]. intros [= <-].
    cbn [d_tracks d_instrument_tracks d_delta_time d_current_velocity].
    split; [split|].
    + cbn [d_tracks]. rewrite lookup_app_l; [done|]. rewrite Hl. lia.
    + cbn [d_instrument_tracks]. rewrite dom_insert_L, Hk.
      apply (comm_L (∪)).
    + cbn [d_tracks d_instrument_tracks].
      rewrite length_app, map_size_insert_None by done. cbn. lia.
    + cbn [d_tracks d_instrument_tracks]. intros k pos.
      rewrite lookup_insert_Some. intros [[<- <-]|[Hne Hk']].
      * split; [rewrite Hl; lia|].
        exists [ProgramChange (key `mod` 16) program_ 0]. split.
        -- by rewrite lookup_app_r, Nat.sub_diag.
        -- by exists program_, [].
      * destruct (Ht k pos Hk') as (Hp & track & Htr & Hit).
        split; [done|]. exists track. split; [|done].
        by apply lookup_app_l_Some.
    + cbn [d_tracks d_instrument_tracks]. intros pos track.
      rewrite lookup_app_Some. intros [H|[Hlen H]].
      * destruct (Ha _ _ H) as [k Hk']. exists k.
        rewrite lookup_insert_ne; [done|]. intros ->. congruence.
      * exists key. apply lookup_insert_Some. left. split; [done|].
        apply lookup_lt_Some in H. cbn in H. lia.
    + done.
    + split; [|split; [done|split; [done|]]].
      * rewrite file_time_app. unfold file_time at 2. cbn. lia.
      * eexists. apply lookup_insert_Some. by left.
Qed.

Lemma append_note_tracks_inv (fname : string) (tempo : Z) (st : decoder)
    (keys : gset Z) (i : Z) (pos : nat) (msg : Message) :
  tracks_inv fname tempo st keys →
  d_instrument_tracks st !! i = Some pos →
  decoded_note (i `mod` 16) msg →
  tracks_inv fname tempo
    (mkDecoder (alter (λ track, track ++ [msg]) pos (d_tracks st))
               (d_instrument_tracks st) (d_current_instrument st)
               (d_current_velocity st) 0) keys
  ∧ (pos < length (d_tracks st))%nat.
Proof.
  intros [Hh Hk Hl Ht Ha Hv] Hi Hmsg.
  destruct (Ht _ _ Hi) as (Hpos & tr & Htr & p & notes & -> & Hnotes).
  split; [|by eapply lookup_lt_Some]. split; cbn [d_tracks d_instrument_tracks
    d_current_velocity]; try done.
  - by rewrite list_lookup_alter_ne.
  - by rewrite length_alter.
  - intros k q Hq. destruct (Ht _ _ Hq) as (Hq0 & tr' & Htr' & Hit).
    split; [done|]. destruct (decide (q = pos)) as [->|Hne].
    + rewrite Htr in Htr'. injection Htr' as <-.
      destruct Hit as (p' & notes' & Heq & Hn').
      assert (k `mod` 16 = i `mod` 16) as -> by congruence.
      exists ((ProgramChange (i `mod` 16) p 0 :: notes) ++ [msg]).
      split; [by rewrite list_lookup_alter_eq, Htr|].
      exists p, (notes ++ [msg]). split; [done|].
      apply Forall_app. split; [done|]. by apply Forall_singleton.
    + exists tr'. by rewrite list_lookup_alter_ne.
  - intros q track Hq. destruct (decide (S q = pos)) as [<-|Hne].
    + by exists i.
    + rewrite list_lookup_alter_ne in Hq by done. by eapply Ha.
Qed.

Lemma decode_symbol_inv (fname : string) (tempo : Z) (st st' : decoder)
    (seen : list Symbol) (s : Symbol) :
  loop_inv fname tempo st seen → decode_symbol st s = Ok st' →
  loop_inv fname tempo st' (seen ++ [s]).
Proof.
  intros (Hinv & Htime & Hdelta). unfold loop_inv.
  rewrite instruments_of_snoc, pending_units_snoc, shift_sum_snoc.
  change DIV with 8 in *.
  destruct s; cbn [decode_symbol instrument_of from_option shift_of
    pending_step].
  - intros [= <-]. by rewrite union_empty_r_L, Z.add_0_r.
  - intros [= <-]. by rewrite union_empty_r_L, Z.add_0_r.
  - intros [= <-]. by rewrite union_empty_r_L, Z.add_0_r.
  - destruct (ensure_track instrument 0 st) as [st1|] eqn:E1; [|done].
    cbn [mbind result_bind].
    destruct (ensure_track_tracks_inv _ _ _ _ _ _ _ Hinv E1)
      as (Hinv1 & Ht1 & Hd1 & Hv1 & [pos Hpos]).
    unfold mido.note_on, mido.check_data_byte, mido.check_channel.
    destruct (bool_decide (0 ≤ note ≤ 127)); [|done].
    destruct (bool_decide (0 ≤ d_current_velocity st1 ≤ 127)); [|done].
    destruct (bool_decide (0 ≤ instrument `mod` 16 ≤ 15)); [|done].
    cbn [mbind result_bind]. rewrite Hpos. intros [= <-].
    destruct (append_note_tracks_inv fname tempo st1 _ instrument pos
                (NoteOn (instrument `mod` 16) note (d_current_velocity st1)
                        (d_delta_time st1)) Hinv1 Hpos) as [Hinv2 Hlt].
    { split; [done|]. apply Hinv1. }
    split; [done|]. cbn [d_tracks d_delta_time].
    rewrite file_time_alter by done. cbn [msg_time]. lia.
  - destruct (ensure_track instrument 0 st) as [st1|] eqn:E1; [|done].
    cbn [mbind result_bind].
    destruct (ensure_track_tracks_inv _ _ _ _ _ _ _ Hinv E1)
      as (Hinv1 & Ht1 & Hd1 & Hv1 & [pos Hpos]).
    unfold mido.note_off, mido.check_data_byte, mido.check_channel.
    destruct (bool_decide (0 ≤ note ≤ 127)); [|done].
    destruct (bool_decide (0 ≤ 0 ≤ 127)); [|done].
    destruct (bool_decide (0 ≤ instrument `mod` 16 ≤ 15)); [|done].
    cbn [mbind result_bind]. rewrite Hpos. intros [= <-].
    destruct (append_note_tracks_inv fname tempo st1 _ instrument pos
                (NoteOff (instrument `mod` 16) note 0 (d_delta_time st1))
                Hinv1 Hpos) as [Hinv2 Hlt]; [done|].
    split; [done|]. cbn [d_tracks d_delta_time].
    rewrite file_time_alter by done. cbn [msg_time]. lia.
  - intros [= <-]. rewrite union_empty_r_L. cbn [d_tracks d_delta_time].
    split; [by eapply tracks_inv_fields; [..|exact Hinv]|].
    change DIV with 8. lia.
  - unfold bin_to_velocity, bin_to_velocity_step. change BIN_STEP with 4.
    case_bool_decide as Hb; [|done]. cbn [negb mbind result_bind].
    intros [= <-]. rewrite union_empty_r_L, Z.add_0_r.
    cbn [d_tracks d_delta_time]. split; [|done].
    destruct Hinv. split; try done.
    cbn [d_current_velocity]. change BIN_STEP with 4.
    split; [done|]. apply Z.mod_mul. lia.
  - intros E.
    eapply ensure_track_tracks_inv in E as (Hinv1 & Ht1 & Hd1 & _);
      [|by eapply tracks_inv_fields; [..|exact Hinv]].
    rewrite Ht1, Hd1. cbn [d_tracks d_delta_time]. split; [done|]. lia.
Qed.

Lemma initial_loop_inv (fname : string) (tempo : Z) :
  loop_inv fname tempo (meta_decoder fname tempo) [].
Proof.
  split; [split|]; done.
Qed.

Lemma decode_symbols_inv (fname : string) (tempo : Z) (syms : list Symbol)
    (st : decoder) :
  decode_events (render <$> syms) fname tempo = Ok st →
  loop_inv fname tempo st syms.
Proof.
  intros [_ E]%decode_events_Ok. revert E. rewrite foldM_render.
  pose proof (initial_loop_inv fname tempo) as Hinit. revert Hinit.
  rewrite <- (app_nil_l syms) at 2.
  generalize (meta_decoder fname tempo). generalize (@nil Symbol).
  induction syms as [|s syms IH]; intros seen st0 Hinv.
  - intros [= <-]. by rewrite app_nil_r.
  - cbn [foldM]. destruct (decode_symbol st0 s) as [st1|] eqn:E; [|done].
    cbn [mbind result_bind]. intros Hfold.
    rewrite (cons_middle s), app_assoc. apply (IH _ st1); [|done].
    by eapply decode_symbol_inv.
Qed.

End decoding_loop.

(** X18. [list_parser] skips the tokens "<pad>", "<start>" and "<end>"
    wherever they stand: taking them out of the event list changes neither
    the file that is built nor the exception that is raised. *)
Theorem list_parser_skips_special (event_list : list string)
    (fname : string) (tempo : Z) :
  list_parser None
    (Some (filter (λ event, event ∉ ["<pad>"; "<start>"; "<end>"]) event_list))
    fname tempo
  = list_parser None (Some event_list) fname tempo.
Proof.
  rewrite !list_parser_event_list. f_equal. unfold decode_events.
  destruct (initial_decoder fname tempo) as [st|]; [|done].
  cbn [mbind result_bind]. revert st.
  induction event_list as [|event event_list IH]; intros st; [done|].
  rewrite filter_cons. case_decide as Hev.
  - cbn [foldM]. destruct (list_parser_step st event); [|done].
    cbn [mbind result_bind]. apply IH.
  - cbn [foldM].
    assert (list_parser_step st event = Ok st) as ->; [|apply IH].
    unfold list_parser_step. by rewrite bool_decide_eq_true_2.
Qed.

(** X19. The delta times of the messages of the file that [list_parser]
    builds from tokens add up to [DIV] times the time-shift units that
    stand before the last note token; the time shifts after the last note
    token are in no message. *)
Theorem list_parser_file_time (syms : list Symbol) (fname : string)
    (tempo : Z) (mid : MidiFile) :
  list_parser None (Some (render <$> syms)) fname tempo = Ok mid →
  file_time mid = DIV * (sumZ (shift_of <$> syms) - pending_units syms).
Proof.
  rewrite list_parser_event_list.
  destruct (decode_events _ _ _) as [st|] eqn:E; [|done]. intros [= <-].
  by apply decode_symbols_inv in E as (_ & ? & _).
Qed.

Lemma list_parser_file_time_witness :
  file_time [[MetaTrackName "output" 0; MetaSetTempo 512820 0];
             [ProgramChange 0 0 0; NoteOn 0 60 64 40; NoteOff 0 60 0 1016]]
  = DIV * (sumZ (shift_of <$> [TIME_SHIFT 5; NOTE_ON 60 0; TIME_SHIFT 124;
                               TIME_SHIFT 3; NOTE_OFF 60 0; TIME_SHIFT 7])
           - pending_units [TIME_SHIFT 5; NOTE_ON 60 0; TIME_SHIFT 124;
                            TIME_SHIFT 3; NOTE_OFF 60 0; TIME_SHIFT 7]).
Proof.
  apply (list_parser_file_time _ default_fname default_tempo). by vm_compute.
Defined.

(** X20. The file that [list_parser] builds from tokens has the metadata
    track first, with the track name and the tempo, and after it one track
    for each instrument that a note or set-instrument token names. Each
    such track starts with a program change at time 0 on the channel of its
    instrument (the instrument modulo 16), and holds after it only note
    messages on that channel: note-on messages with a velocity that is a
    multiple of [BIN_STEP], and note-off messages with velocity 0. *)
Theorem list_parser_tracks (syms : list Symbol) (fname : string)
    (tempo : Z) (mid : MidiFile) :
  list_parser None (Some (render <$> syms)) fname tempo = Ok mid →
  ∃ tracks,
    mid = [MetaTrackName fname 0; MetaSetTempo tempo 0] :: tracks
    ∧ length tracks = size (instruments_of syms)
    ∧ Forall (λ track, ∃ k, k ∈ instruments_of syms
                            ∧ instrument_track (k `mod` 16) track) tracks.
Proof.
  rewrite list_parser_event_list.
  destruct (decode_events _ _ _) as [st|] eqn:E; [|done]. intros [= <-].
  apply decode_symbols_inv in E as ([Hh Hk Hl Ht Ha Hv] & _).
  destruct (d_tracks st) as [|meta tracks]; [done|].
  injection Hh as ->. exists tracks. split; [done|].
  split; [by rewrite <- Hk, size_dom; injection Hl|].
  apply Forall_lookup. intros pos track Hpos.
  destruct (Ha pos track Hpos) as [k Hkpos].
  destruct (Ht _ _ Hkpos) as (_ & track' & Htr & Hit).
  exists k. split; [rewrite <- Hk; by eapply elem_of_dom_2|].
  change (tracks !! pos = Some track') in Htr. congruence.
Qed.

Lemma list_parser_tracks_witness :
  ∃ tracks,
    [[MetaTrackName "output" 0; MetaSetTempo 512820 0];
     [ProgramChange 3 3 0; NoteOn 3 60 100 0];
     [ProgramChange 1 0 0; NoteOff 1 62 0 8]]
    = [MetaTrackName default_fname 0; MetaSetTempo default_tempo 0] :: tracks
    ∧ length tracks
      = size (instruments_of [SET_INSTRUMENT 3; SET_VELOCITY 25;
                              NOTE_ON 60 3; TIME_SHIFT 1; NOTE_OFF 62 17])
    ∧ Forall (λ track,
        ∃ k, k ∈ instruments_of [SET_INSTRUMENT 3; SET_VELOCITY 25;
                                 NOTE_ON 60 3; TIME_SHIFT 1; NOTE_OFF 62 17]
             ∧ instrument_track (k `mod` 16) track) tracks.
Proof.
  apply (list_parser_tracks _ default_fname default_tempo). by vm_compute.
Defined.

Section decode_then_encode.

Lemma emit_render (s : Symbol) (st : encoder) :
  constructible s →
  emit (render s) st
  = Ok (mkEncoder (e_event_list st ++ [render s])
                  (e_index_list st ++ [index_of_symbol s]) (e_last_time st)).
Proof. intros Hs. unfold emit. by rewrite index_render. Qed.

Lemma list_parser_velocity_note (b n i : Z) (fname : string) (tempo : Z) :
  0 ≤ b < velocity_events → 0 ≤ n < note_on_events →
  0 ≤ i < max_instruments → tempo_fits tempo →
  list_parser None (Some [render (SET_VELOCITY b); render (NOTE_ON n i)])
    fname tempo
  = Ok [[MetaTrackName fname 0; MetaSetTempo tempo 0];
        [ProgramChange i 0 0; NoteOn i n (b * BIN_STEP) 0]].
Proof.
  unfold velocity_events, note_on_events, max_instruments.
  intros Hb Hn Hi Ht. rewrite list_parser_event_list.
  rewrite decode_events_fits by done.
  change [render (SET_VELOCITY b); render (NOTE_ON n i)]
    with (render <$> [SET_VELOCITY b; NOTE_ON n i]).
  rewrite foldM_render. cbn [foldM decode_symbol].
  unfold bin_to_velocity, bin_to_velocity_step. change BIN_STEP with 4.
  rewrite bool_decide_eq_true_2 by lia. cbn [negb mbind result_bind].
  unfold ensure_track, meta_decoder.
  cbn [d_instrument_tracks d_tracks d_current_velocity d_delta_time
       d_current_instrument].
  rewrite lookup_empty.
  unfold mido.program_change, mido.note_on, mido.check_data_byte,
    mido.check_channel.
  rewrite (Z.mod_small i 16) by lia.
  rewrite !bool_decide_eq_true_2 by lia.
  cbn [mbind result_bind d_instrument_tracks d_tracks d_current_velocity
       d_delta_time d_current_instrument].
  rewrite !bool_decide_eq_true_2 by lia.
  cbn [mbind result_bind]. by rewrite lookup_insert_eq.
Qed.

Lemma collect_program_note (fname : string) (tempo i n v : Z) :
  collect [[MetaTrackName fname 0; MetaSetTempo tempo 0];
           [ProgramChange i 0 0; NoteOn i n v 0]]
  = mkCollector tempo (<[i := 0]> ∅)
      [MidiEvent.mk set_instrument None None i 0 (Some 0);
       MidiEvent.mk (if decide (v = 0) then note_off else note_on)
                    (Some n) (Some v) 0 0 None] 0.
Proof.
  unfold collect, collect_init. cbn [foldl]. unfold collect_msg.
  cbn [is_meta msg_time c_tempo c_channel_programs c_absolute_events
       c_current_time app Z.add].
  rewrite decide_True by done. by rewrite lookup_insert_eq.
Qed.

Lemma encode_event_set_instrument (st : encoder) (i t p : Z) :
  t ≤ e_last_time st → 0 ≤ p < instrument_events →
  encode_event st (MidiEvent.mk set_instrument None None i t (Some p))
  = Ok (mkEncoder (e_event_list st ++ [render (SET_INSTRUMENT p)])
                  (e_index_list st ++ [index_of_symbol (SET_INSTRUMENT p)])
                  (e_last_time st)).
Proof.
  intros Ht Hp. unfold encode_event, advance_time. cbn [MidiEvent.time].
  rewrite decide_False by lia.
  cbn [mbind result_bind MidiEvent.type MidiEvent.program Py.str_opt].
  by apply (emit_render (SET_INSTRUMENT p)).
Qed.

Lemma encode_event_note_off (st : encoder) (n v i t : Z) :
  t ≤ e_last_time st → 0 ≤ n < note_off_events → 0 ≤ i < max_instruments →
  encode_event st (MidiEvent.mk note_off (Some n) (Some v) i t None)
  = Ok (mkEncoder (e_event_list st ++ [render (NOTE_OFF n i)])
                  (e_index_list st ++ [index_of_symbol (NOTE_OFF n i)])
                  (e_last_time st)).
Proof.
  intros Ht Hn Hi. unfold encode_event, advance_time. cbn [MidiEvent.time].
  rewrite decide_False by lia.
  cbn [mbind result_bind MidiEvent.type MidiEvent.note MidiEvent.instrument
       type_str Py.str_opt].
  by apply (emit_render (NOTE_OFF n i)).
Qed.

Lemma encode_event_note_on (st : encoder) (n v i t : Z) :
  t ≤ e_last_time st → 0 ≤ n < note_on_events → 0 ≤ v ≤ 127 →
  0 ≤ i < max_instruments →
  encode_event st (MidiEvent.mk note_on (Some n) (Some v) i t None)
  = Ok (mkEncoder
          (e_event_list st
             ++ [render (SET_VELOCITY (v `div` BIN_STEP));
                 render (NOTE_ON n i)])
          (e_index_list st
             ++ [index_of_symbol (SET_VELOCITY (v `div` BIN_STEP));
                 index_of_symbol (NOTE_ON n i)])
          (e_last_time st)).
Proof.
  intros Ht Hn Hv Hi. unfold encode_event, advance_time.
  cbn [MidiEvent.time]. rewrite decide_False by lia.
  cbn [mbind result_bind MidiEvent.type MidiEvent.note MidiEvent.instrument
       MidiEvent.velocity type_str Py.str_opt velocity_to_bin_opt].
  change BIN_STEP with 4.
  assert (velocity_to_bin v = Ok (v `div` 4)) as ->
    by (by apply velocity_to_bin_spec).
  cbn [mbind result_bind].
  rewrite (emit_render (SET_VELOCITY (v `div` 4)))
    by (unfold constructible, velocity_events;
        split; [apply Z.div_pos|apply Z.div_lt_upper_bound]; lia).
  cbn [mbind result_bind].
  rewrite (emit_render (NOTE_ON n i)) by done.
  cbn [e_event_list e_index_list e_last_time]. by rewrite <- !app_assoc.
Qed.

End decode_then_encode.

(** X21. A note-on token of instrument [i] that follows a set-velocity
    token of bin [b], decoded by [list_parser] and encoded again by
    [midi_parser], comes back as a token of instrument 0 after a
    "set_instrument_0" token, whatever [i] is; and when [b] is 0 it comes
    back as a note-off token with no set-velocity token. The tempo given
    to [list_parser], one that fits the three bytes of a set_tempo message,
    comes back as it is. *)
Theorem note_token_decode_encode (b n i : Z) (fname : string) (tempo : Z) :
  0 ≤ b < velocity_events → 0 ≤ n < note_on_events →
  0 ≤ i < max_instruments → 0 ≤ tempo < 2 ^ 24 →
  (mid ← list_parser None
           (Some [render (SET_VELOCITY b); render (NOTE_ON n i)])
           fname tempo;
   midi_parser mid)
  = let syms := SET_INSTRUMENT 0
                :: (if decide (b = 0) then [NOTE_OFF n 0]
                    else [SET_VELOCITY b; NOTE_ON n 0]) in
    Ok (start_token :: (index_of_symbol <$> syms) ++ [end_token],
        "<start>" :: (render <$> syms) ++ ["<end>"], tempo).
Proof.
  intros Hb Hn Hi Ht.
  rewrite list_parser_velocity_note by (try done; unfold tempo_fits; lia).
  cbn [mbind result_bind]. unfold midi_parser.
  rewrite collect_program_note. cbn [c_absolute_events c_tempo].
  rewrite sort_by_time_sorted_id
    by (repeat constructor; unfold by_time; cbn; lia).
  unfold encode_events. cbn [foldM].
  rewrite encode_event_set_instrument by (cbn; unfold instrument_events; lia).
  cbn [mbind result_bind e_event_list e_index_list e_last_time app].
  unfold velocity_events, note_on_events, max_instruments in *.
  change BIN_STEP with 4. destruct (decide (b = 0)) as [->|Hb0].
  - rewrite decide_True by done.
    rewrite encode_event_note_off
      by (cbn; unfold note_off_events, note_on_events, max_instruments; lia).
    done.
  - rewrite decide_False by lia.
    rewrite encode_event_note_on
      by (cbn; unfold note_on_events, max_instruments; lia).
    change BIN_STEP with 4. rewrite Z.div_mul by done. done.
Qed.

Lemma note_token_decode_encode_witness :
  (mid ← list_parser None (Some ["set_velocity_25"; "note_on_60_5"])
           "output" 512820;
   midi_parser mid)
  = Ok ([4382; 4254; 4247; 61; 4383],
        ["<start>"; "set_instrument_0"; "set_velocity_25"; "note_on_60_0";
         "<end>"], 512820).
Proof.
  apply (note_token_decode_encode 25 60 5 "output" 512820);
    unfold velocity_events, note_on_events, max_instruments; lia.
Defined.

Section track_programs.

Lemma foldM_seen {A S : Type} (f : S → A → result S)
    (I : S → list A → Prop) :
  (∀ st st' x seen, I st seen → f st x = Ok st' → I st' (seen ++ [x])) →
  ∀ l st st', I st [] → foldM f st l = Ok st' → I st' l.
Proof.
  intros Hstep l st st' Hinit. rewrite <- (app_nil_l l) at 2.
  revert Hinit. generalize (@nil A). revert st.
  induction l as [|x l IH]; intros st seen Hinv.
  - intros [= <-]. by rewrite app_nil_r.
  - cbn [foldM]. destruct (f st x) as [st1|] eqn:E; [|done].
    cbn [mbind result_bind]. intros Hfold.
    rewrite (cons_middle x), app_assoc. apply (IH st1); [|done].
    by eapply Hstep.
Qed.

Lemma instruments_of_cons (s : Symbol) (syms : list Symbol) :
  instruments_of (s :: syms)
  = from_option singleton ∅ (instrument_of s) ∪ instruments_of syms.
Proof.
  unfold instruments_of. cbn [omap list_omap].
  destruct (instrument_of s); cbn; [done|by rewrite union_empty_l_L].
Qed.

Lemma program_of_snoc (k : Z) (seen : list Symbol) (s : Symbol) :
  program_of k (seen ++ [s])
  = if decide (k ∈ instruments_of seen) then program_of k seen
    else program_of k [s].
Proof.
  induction seen as [|s0 seen IH].
  - rewrite decide_False; [done|]. unfold instruments_of. cbn.
    apply not_elem_of_empty.
  - cbn [app program_of]. rewrite instruments_of_cons.
    destruct (decide (instrument_of s0 = Some k)) as [E|E].
    + rewrite decide_True; [done|]. rewrite E. cbn.
      apply elem_of_union_l. by apply elem_of_singleton.
    + rewrite IH. destruct (decide (k ∈ instruments_of seen)) as [Hin|Hin].
      * rewrite decide_True; [done|]. by apply elem_of_union_r.
      * rewrite decide_False; [done|]. intros [H|H]%elem_of_union; [|done].
        destruct (instrument_of s0); cbn in H.
        -- apply elem_of_singleton in H. congruence.
        -- by apply not_elem_of_empty in H.
Qed.

Lemma programs_inv_snoc (st st' : decoder) (seen : list Symbol)
    (s : Symbol) (fname : string) (tempo : Z) :
  d_tracks st' = d_tracks st →
  d_instrument_tracks st' = d_instrument_tracks st →
  tracks_inv fname tempo st (instruments_of seen) →
  programs_inv st seen → programs_inv st' (seen ++ [s]).
Proof.
  intros Ht Hm Hinv [Hp Hinj]. unfold programs_inv. rewrite Ht, Hm.
  split; [|done]. intros k pos Hk. rewrite program_of_snoc.
  rewrite decide_True; [by apply Hp|].
  rewrite <- (ti_keys _ _ _ _ Hinv). by eapply elem_of_dom_2.
Qed.

Lemma ensure_track_programs (fname : string) (tempo : Z)
    (key program_ : Z) (st st' : decoder) (seen : list Symbol) (s : Symbol) :
  tracks_inv fname tempo st (instruments_of seen) → programs_inv st seen →
  instrument_of s = Some key → token_program s = program_ →
  ensure_track key program_ st = Ok st' →
  programs_inv st' (seen ++ [s]).
Proof.
  intros Hinv [Hp Hinj] Hkey Hprog. unfold ensure_track.
  destruct (d_instrument_tracks st !! key) as [pos|] eqn:E.
  - intros [= <-]. by eapply programs_inv_snoc.
  - unfold mido.program_change, mido.check_data_byte, mido.check_channel.
    destruct (bool_decide (0 ≤ program_ ≤ 127)); [|done].
    destruct (bool_decide (0 ≤ key `mod` 16 ≤ 15)); [|done].
    cbn [mbind result_bind]. intros [= <-].
    split; cbn [d_tracks d_instrument_tracks].
    + intros k pos. rewrite program_of_snoc.
      rewrite lookup_insert_Some. intros [[<- <-]|[Hne Hk]].
      * rewrite decide_False.
        2:{ rewrite <- (ti_keys _ _ _ _ Hinv). by apply not_elem_of_dom. }
        cbn [program_of]. rewrite decide_True by done. rewrite Hprog.
        exists []. by rewrite lookup_app_r, Nat.sub_diag.
      * rewrite decide_True.
        2:{ rewrite <- (ti_keys _ _ _ _ Hinv). by eapply elem_of_dom_2. }
        destruct (Hp k pos Hk) as [notes Hnotes]. exists notes.
        by apply lookup_app_l_Some.
    + assert (∀ k pos, d_instrument_tracks st !! k = Some pos →
                       pos ≠ length (d_tracks st)) as Hlt.
      { intros k pos Hk. destruct (Hp k pos Hk) as [notes Hnotes].
        apply lookup_lt_Some in Hnotes. lia. }
      intros k1 k2 pos. rewrite !lookup_insert_Some.
      intros [[<- <-]|[Hne1 Hk1]] [[<- Hpos]|[Hne2 Hk2]]; try done.
      * by apply Hlt in Hk2.
      * apply Hlt in Hk1. congruence.
      * by eapply Hinj.
Qed.

Lemma append_note_programs (st : decoder) (seen : list Symbol) (pos : nat)
    (msg : Message) :
  programs_inv st seen →
  programs_inv
    (mkDecoder (alter (λ track, track ++ [msg]) pos (d_tracks st))
               (d_instrument_tracks st) (d_current_instrument st)
               (d_current_velocity st) 0) seen.
Proof.
  intros [Hp Hinj]. split; cbn [d_tracks d_instrument_tracks]; [|done].
  intros k q Hk. destruct (Hp k q Hk) as [notes Hnotes].
  destruct (decide (q = pos)) as [->|Hne].
  - exists (notes ++ [msg]). by rewrite list_lookup_alter_eq, Hnotes.
  - exists notes. by rewrite list_lookup_alter_ne.
Qed.

Lemma decode_symbol_programs (fname : string) (tempo : Z) (st st' : decoder)
    (seen : list Symbol) (s : Symbol) :
  loop_inv fname tempo st seen → programs_inv st seen →
  decode_symbol st s = Ok st' → programs_inv st' (seen ++ [s]).
Proof.
  intros (Hinv & _) Hprog.
  destruct s; cbn [decode_symbol];
    try (intros [= <-]; by eapply (programs_inv_snoc st)).
  - destruct (ensure_track instrument 0 st) as [st1|] eqn:E1; [|done].
    cbn [mbind result_bind].
    pose proof (ensure_track_programs fname tempo instrument 0 st st1 seen
                  (NOTE_ON note instrument) Hinv Hprog eq_refl eq_refl E1)
      as Hprog1.
    destruct (mido.note_on _ _ _ _) as [msg|]; [|done].
    cbn [mbind result_bind].
    destruct (d_instrument_tracks st1 !! instrument) as [pos|]; [|done].
    intros [= <-]. by apply append_note_programs.
  - destruct (ensure_track instrument 0 st) as [st1|] eqn:E1; [|done].
    cbn [mbind result_bind].
    pose proof (ensure_track_programs fname tempo instrument 0 st st1 seen
                  (NOTE_OFF note instrument) Hinv Hprog eq_refl eq_refl E1)
      as Hprog1.
    destruct (mido.note_off _ _ _ _) as [msg|]; [|done].
    cbn [mbind result_bind].
    destruct (d_instrument_tracks st1 !! instrument) as [pos|]; [|done].
    intros [= <-]. by apply append_note_programs.
  - destruct (bin_to_velocity bin) as [v|]; [|done].
    cbn [mbind result_bind]. intros [= <-].
    by eapply (programs_inv_snoc st).
  - apply ensure_track_programs with (fname := fname) (tempo := tempo);
      try done.
    by eapply tracks_inv_fields; [..|exact Hinv].
Qed.

Lemma decode_symbols_programs (fname : string) (tempo : Z)
    (syms : list Symbol) (st : decoder) :
  decode_events (render <$> syms) fname tempo = Ok st →
  loop_inv fname tempo st syms ∧ programs_inv st syms.
Proof.
  intros [_ E]%decode_events_Ok. revert E. rewrite foldM_render.
  apply (foldM_seen decode_symbol
           (λ st seen, loop_inv fname tempo st seen ∧ programs_inv st seen)).
  - intros st0 st1 s seen [Hl Hp] E. split.
    + by eapply decode_symbol_inv.
    + by eapply decode_symbol_programs.
  - split; [apply initial_loop_inv|].
    unfold programs_inv, meta_decoder. cbn [d_instrument_tracks].
    split; intros k ?; by rewrite lookup_empty.
Qed.

End track_programs.

(** X22. In the file that [list_parser] builds from tokens, every
    instrument that a note or set-instrument token names has a track of its
    own. The track starts with a program change whose program is given by
    the first token that names the instrument: the instrument itself if
    that token is a set-instrument token, 0 if it is a note token. A
    set-instrument token that comes after it does not change the
    program. *)
Theorem list_parser_programs (syms : list Symbol) (fname : string)
    (tempo : Z) (mid : MidiFile) :
  list_parser None (Some (render <$> syms)) fname tempo = Ok mid →
  ∃ position : gmap Z nat,
    dom position = instruments_of syms
    ∧ (∀ k pos, position !! k = Some pos →
         ∃ notes, mid !! pos
                  = Some (ProgramChange (k `mod` 16) (program_of k syms) 0
                            :: notes))
    ∧ (∀ k1 k2 pos, position !! k1 = Some pos → position !! k2 = Some pos →
                    k1 = k2).
Proof.
  rewrite list_parser_event_list.
  destruct (decode_events _ _ _) as [st|] eqn:E; [|done]. intros [= <-].
  apply decode_symbols_programs in E as [[Hinv _] [Hp Hinj]].
  exists (d_instrument_tracks st). split; [|done]. apply Hinv.
Qed.

Lemma list_parser_programs_witness :
  ∃ position : gmap Z nat,
    dom position
    = instruments_of [NOTE_ON 60 3; SET_INSTRUMENT 3; SET_INSTRUMENT 40]
    ∧ (∀ k pos, position !! k = Some pos →
         ∃ notes,
           [[MetaTrackName "output" 0; MetaSetTempo 512820 0];
            [ProgramChange 3 0 0; NoteOn 3 60 64 0];
            [ProgramChange 8 40 0]] !! pos
           = Some (ProgramChange (k `mod` 16)
                     (program_of k [NOTE_ON 60 3; SET_INSTRUMENT 3;
                                    SET_INSTRUMENT 40]) 0 :: notes))
    ∧ (∀ k1 k2 pos, position !! k1 = Some pos → position !! k2 = Some pos →
                    k1 = k2).
Proof.
  apply (list_parser_programs _ default_fname default_tempo). by vm_compute.
Defined.
